(** * Vinyl Player: playback and playlist state core

    A shallow embedding of [src/reproductor_musica.py]: the classes
    [AudioFormats], [PlaybackState], [PlaylistManager] and the playback
    control methods of [VinylPlayer], followed by the properties of the
    specification that concern them.

    Modelling conventions.
    - Python [int] values (indices, [repeat_mode]) are [Z]; Python lists are
      [list], indexed through [Py.get], which follows Python's rule for
      negative indices and yields [None] where Python raises [IndexError].
    - Timestamps and durations (Python [float], seconds) are idealised as
      exact rationals [Q]: rounding of binary floating point is abstracted.
    - [time.time()] is an explicit argument of each method that reads the
      clock, one argument per reading.
    - The audio backend ([pygame.mixer.music]) and the duration probe are an
      explicit environment [Backend]; the busy flag polled by the tick is an
      argument of the tick.
    - [random.shuffle] is an explicit function argument [random_shuffle];
      where it matters it is assumed to return a permutation of its input.
    - Widgets (labels, buttons, list box, cover art) are not modelled; the
      only user-visible effect kept is the outcome of [load_and_play]. *)

From Stdlib Require Import ZArith QArith Qminmax Qround.
From Stdlib Require Import List String Ascii Bool.
From Stdlib Require Import Lia Lqa Permutation Sorted.
From Stdlib Require Import PrimFloat.
Import ListNotations.

Local Open Scope Z_scope.

(** ** Python built-ins used by the source *)

Module Py.

Section Lists.
Context {A : Type}.

(** [len(l)] *)
Definition len (l : list A) : Z := Z.of_nat (List.length l).

(** [l[i]]: negative indices count from the end, [None] is [IndexError]. *)
Definition get (l : list A) (i : Z) : option A :=
  if i <? 0 then
    if - len l <=? i then nth_error l (Z.to_nat (len l + i)) else None
  else nth_error l (Z.to_nat i).

(** The list left by [del l[n]] / [l.pop(n)] for a position [n] in range. *)
Fixpoint remove_nth (n : nat) (l : list A) : list A :=
  match l, n with
  | [], _ => []
  | _ :: t, O => t
  | x :: t, S k => x :: remove_nth k t
  end.

(** [not l] *)
Definition is_empty (l : list A) : bool :=
  match l with [] => true | _ :: _ => false end.
End Lists.

(** [x in l] on strings *)
Definition contains (x : string) (l : list string) : bool :=
  existsb (String.eqb x) l.

(** [l.index(x)]: position of the first match ([None] is [ValueError]). *)
Fixpoint index (x : string) (l : list string) : option Z :=
  match l with
  | [] => None
  | y :: t =>
      if String.eqb x y then Some 0
      else match index x t with
           | Some i => Some (i + 1)
           | None => None
           end
  end.

(** Truth value of [current_track], a [str] or [None]. *)
Definition truthy (o : option string) : bool :=
  match o with
  | None => false
  | Some s => negb (String.eqb s EmptyString)
  end.

(** [sorted(indices, reverse=True)] on integers. *)
Fixpoint insert_desc (x : Z) (l : list Z) : list Z :=
  match l with
  | [] => [x]
  | y :: t => if y <=? x then x :: y :: t else y :: insert_desc x t
  end.

Definition sorted_reverse (l : list Z) : list Z :=
  fold_right insert_desc [] l.

(** [int(x)] on a float: truncation towards zero. *)
Definition int (x : Q) : Z :=
  if Qle_bool 0 x then Qfloor x else Qceiling x.

(** [max(0.0, x)]: the first argument unless the second is larger. *)
Definition max0 (x : Q) : Q := Qmax 0 x.

(** [str.lower()], on the ASCII letters. *)
Definition lower_ascii (c : ascii) : ascii :=
  let n := nat_of_ascii c in
  if (Nat.leb 65 n && Nat.leb n 90)%bool then ascii_of_nat (n + 32) else c.

Fixpoint lower (s : string) : string :=
  match s with
  | EmptyString => EmptyString
  | String c t => String (lower_ascii c) (lower t)
  end.

(** [pathlib.PurePosixPath]: the components of a path, its [name] and its
    [suffix] (from the last dot of the name, when that dot is neither the
    first nor the last character). *)
Fixpoint split_on (sep : ascii) (s : string) : list string :=
  match s with
  | EmptyString => [EmptyString]
  | String c t =>
      if Ascii.eqb c sep then EmptyString :: split_on sep t
      else match split_on sep t with
           | h :: r => String c h :: r
           | [] => [String c EmptyString]
           end
  end.

Definition path_name (p : string) : string :=
  last (filter (fun c => negb (String.eqb c EmptyString)
                         && negb (String.eqb c "."))%bool
               (split_on "/"%char p)) EmptyString.

Fixpoint rfind_dot (s : string) (pos : nat) : option nat :=
  match s with
  | EmptyString => None
  | String c t =>
      match rfind_dot t (S pos) with
      | Some j => Some j
      | None => if Ascii.eqb c "."%char then Some pos else None
      end
  end.

Definition path_suffix (p : string) : string :=
  let name := path_name p in
  match rfind_dot name 0 with
  | Some i =>
      if (Nat.ltb 0 i && Nat.ltb i (String.length name - 1))%bool
      then substring i (String.length name - i) name
      else EmptyString
  | None => EmptyString
  end.

End Py.

(** ** class AudioFormats *)

Module AudioFormats.

Definition EXTENSIONS : list string :=
  [".mp3"; ".ogg"; ".wav"; ".flac"; ".mod"; ".xm"; ".it"; ".s3m"]%string.

(** [Path(file).suffix.lower() in AudioFormats.EXTENSIONS] *)
Definition supported (file : string) : bool :=
  Py.contains (Py.lower (Py.path_suffix file)) EXTENSIONS.

End AudioFormats.

(** ** class PlaybackState *)

Module PlaybackState.

Record t : Type := Build {
  is_playing : bool;
  is_paused : bool;
  track_length : Q;
  start_time : Q;
  pause_accum : Q;
  last_pause : Q
}.

Definition reset : t :=
  {| is_playing := false; is_paused := false; track_length := 0%Q;
     start_time := 0%Q; pause_accum := 0%Q; last_pause := 0%Q |}.

(** The transport phase the two flags encode. *)
Inductive Phase : Type := Stopped | Playing | Paused.

Definition phase (s : t) : Phase :=
  if is_playing s then (if is_paused s then Paused else Playing) else Stopped.

End PlaybackState.

(** ** class PlaylistManager *)

Module PlaylistManager.

Record t : Type := Build {
  playlist : list string;
  original_order : list string;
  current_index : Z;
  repeat_mode : Z;
  shuffle_mode : bool
}.

Definition init : t :=
  {| playlist := []; original_order := []; current_index := -1;
     repeat_mode := 0; shuffle_mode := false |}.

Definition set_playlist (l : list string) (pm : t) : t :=
  {| playlist := l; original_order := original_order pm;
     current_index := current_index pm; repeat_mode := repeat_mode pm;
     shuffle_mode := shuffle_mode pm |}.

Definition set_original_order (l : list string) (pm : t) : t :=
  {| playlist := playlist pm; original_order := l;
     current_index := current_index pm; repeat_mode := repeat_mode pm;
     shuffle_mode := shuffle_mode pm |}.

Definition set_current_index (i : Z) (pm : t) : t :=
  {| playlist := playlist pm; original_order := original_order pm;
     current_index := i; repeat_mode := repeat_mode pm;
     shuffle_mode := shuffle_mode pm |}.

Definition set_repeat_mode (r : Z) (pm : t) : t :=
  {| playlist := playlist pm; original_order := original_order pm;
     current_index := current_index pm; repeat_mode := r;
     shuffle_mode := shuffle_mode pm |}.

Definition set_shuffle_mode (b : bool) (pm : t) : t :=
  {| playlist := playlist pm; original_order := original_order pm;
     current_index := current_index pm; repeat_mode := repeat_mode pm;
     shuffle_mode := b |}.

Definition _update_original_order (pm : t) : t :=
  set_original_order (playlist pm) pm.

(** One turn of the loop of [add_files] / [add_folder]. *)
Definition append_if_supported (pl : list string) (file : string) : list string :=
  if AudioFormats.supported file then pl ++ [file] else pl.

Definition add_files (files : list string) (pm : t) : t :=
  _update_original_order
    (set_playlist (fold_left append_if_supported files (playlist pm)) pm).

(** [found] is what [folder_path.rglob("*")] enumerates, in traversal order;
    the result carries the returned count [added]. *)
Definition add_folder (found : list string) (pm : t) : Z * t :=
  let step (acc : Z * list string) (file_path : string) :=
    if AudioFormats.supported file_path
    then (fst acc + 1, snd acc ++ [file_path])
    else acc in
  let r := fold_left step found (0, playlist pm) in
  (fst r, _update_original_order (set_playlist (snd r) pm)).

(** Body of the loop of [remove_items] for one index. *)
Definition remove_step (pm : t) (idx : Z) : t :=
  if ((0 <=? idx) && (idx <? Py.len (playlist pm)))%bool then
    let pm' := set_playlist (Py.remove_nth (Z.to_nat idx) (playlist pm)) pm in
    if idx =? current_index pm' then set_current_index (-1) pm'
    else if idx <? current_index pm' then
           set_current_index (current_index pm' - 1) pm'
         else pm'
  else pm.

Definition remove_items (indices : list Z) (pm : t) : t :=
  let pm1 := fold_left remove_step (Py.sorted_reverse indices) pm in
  let pm2 := _update_original_order pm1 in
  if (negb (Py.is_empty (playlist pm2))
      && (Py.len (playlist pm2) <=? current_index pm2))%bool
  then set_current_index (Py.len (playlist pm2) - 1) pm2
  else pm2.

Definition clear (pm : t) : t :=
  set_current_index (-1) (set_original_order [] (set_playlist [] pm)).

(** [self.playlist[self.current_index] if self.current_index >= 0 else None];
    the outer [None] is the [IndexError] of an index past the end. *)
Definition current_track (pm : t) : option (option string) :=
  if 0 <=? current_index pm then
    match Py.get (playlist pm) (current_index pm) with
    | Some tr => Some (Some tr)
    | None => None
    end
  else Some None.

Definition _apply_shuffle (random_shuffle : list string -> list string)
    (pm : t) : option t :=
  if Py.is_empty (playlist pm) then Some pm
  else
    match current_track pm with
    | None => None
    | Some cur =>
        let temp_playlist := playlist pm in
        let temp_playlist :=
          if Py.truthy cur
          then Py.remove_nth (Z.to_nat (current_index pm)) temp_playlist
          else temp_playlist in
        let temp_playlist := random_shuffle temp_playlist in
        match cur with
        | Some tr =>
            if Py.truthy cur
            then Some (set_playlist (tr :: temp_playlist)
                                    (set_current_index 0 pm))
            else Some (set_playlist temp_playlist pm)
        | None => Some (set_playlist temp_playlist pm)
        end
    end.

Definition _restore_original_order (pm : t) : option t :=
  if Py.is_empty (original_order pm) then Some pm
  else
    match current_track pm with
    | None => None
    | Some cur =>
        let pm' := set_playlist (original_order pm) pm in
        match cur with
        | Some tr =>
            if (Py.truthy cur && Py.contains tr (playlist pm'))%bool then
              match Py.index tr (playlist pm') with
              | Some i => Some (set_current_index i pm')
              | None => None
              end
            else Some pm'
        | None => Some pm'
        end
    end.

Definition toggle_shuffle (random_shuffle : list string -> list string)
    (pm : t) : option t :=
  let pm' := set_shuffle_mode (negb (shuffle_mode pm)) pm in
  if shuffle_mode pm' then _apply_shuffle random_shuffle pm'
  else _restore_original_order pm'.

Definition get_next_index (pm : t) : Z :=
  if Py.is_empty (playlist pm) then -1
  else if repeat_mode pm =? 1 then current_index pm
  else (current_index pm + 1) mod Py.len (playlist pm).

Definition get_prev_index (pm : t) : Z :=
  if Py.is_empty (playlist pm) then -1
  else if repeat_mode pm =? 1 then current_index pm
  else (current_index pm - 1) mod Py.len (playlist pm).

End PlaylistManager.

(** ** class VinylPlayer: playback control *)

Module VinylPlayer.

Import PlaybackState.

(** What the player consumes from [pygame.mixer.music] and the length probe:
    whether [pygame.mixer.music.load(path)] succeeds (it raises otherwise)
    and what [_probe_length(path)] returns. *)
Record Backend : Type := {
  load_ok : string -> bool;
  probe_length : string -> Q
}.

Record t : Type := Build {
  playlist_manager : PlaylistManager.t;
  playback_state : PlaybackState.t
}.

Definition init : t :=
  {| playlist_manager := PlaylistManager.init;
     playback_state := PlaybackState.reset |}.

Definition set_pm (pm : PlaylistManager.t) (vp : t) : t :=
  {| playlist_manager := pm; playback_state := playback_state vp |}.

Definition set_ps (ps : PlaybackState.t) (vp : t) : t :=
  {| playlist_manager := playlist_manager vp; playback_state := ps |}.

(** What a call reports to the user. *)
Inductive Outcome : Type :=
| Ignored                      (* silent return *)
| NoSongs                      (* the "No Songs" information box *)
| LoadError (path : string)    (* the "Load Error" error box *)
| NowPlaying (path : string)   (* playback started, "Playing: ..." *)
| PausedNow
| ResumedNow.

Definition load_and_play (be : Backend) (now : Q) (index : Z) (vp : t)
    : Outcome * t :=
  let pl := PlaylistManager.playlist (playlist_manager vp) in
  if ((index <? 0) || (Py.len pl <=? index))%bool then (Ignored, vp)
  else
    let path := nth (Z.to_nat index) pl EmptyString in
    if load_ok be path then
      (NowPlaying path,
       set_ps {| is_playing := true; is_paused := false;
                 track_length := probe_length be path;
                 start_time := now; pause_accum := 0%Q;
                 last_pause := 0%Q |} vp)
    else (LoadError path, vp).

(** [selection] is the playlist index behind the list box selection
    ([filtered_indices[selection[0]]] or [selection[0]]), if any. *)
Definition play_pause (be : Backend) (now : Q) (selection : option Z) (vp : t)
    : Outcome * t :=
  let pm := playlist_manager vp in
  let ps := playback_state vp in
  if Py.is_empty (PlaylistManager.playlist pm) then (NoSongs, vp)
  else if (is_playing ps && negb (is_paused ps))%bool then
    (PausedNow,
     set_ps {| is_playing := is_playing ps; is_paused := true;
               track_length := track_length ps; start_time := start_time ps;
               pause_accum := pause_accum ps; last_pause := now |} vp)
  else if (is_playing ps && is_paused ps)%bool then
    (ResumedNow,
     set_ps {| is_playing := is_playing ps; is_paused := false;
               track_length := track_length ps; start_time := start_time ps;
               pause_accum := (pause_accum ps + (now - last_pause ps))%Q;
               last_pause := last_pause ps |} vp)
  else
    let pm' :=
      match selection with
      | Some i => PlaylistManager.set_current_index i pm
      | None =>
          if PlaylistManager.current_index pm =? -1
          then PlaylistManager.set_current_index 0 pm
          else pm
      end in
    load_and_play be now (PlaylistManager.current_index pm') (set_pm pm' vp).

Definition stop (vp : t) : t := set_ps PlaybackState.reset vp.

Definition next_track (be : Backend) (now : Q) (vp : t) : Outcome * t :=
  let pm := playlist_manager vp in
  if Py.is_empty (PlaylistManager.playlist pm) then (Ignored, vp)
  else
    let next_index := PlaylistManager.get_next_index pm in
    load_and_play be now next_index
      (set_pm (PlaylistManager.set_current_index next_index pm) vp).

Definition prev_track (be : Backend) (now : Q) (vp : t) : Outcome * t :=
  let pm := playlist_manager vp in
  if Py.is_empty (PlaylistManager.playlist pm) then (Ignored, vp)
  else
    let prev_index := PlaylistManager.get_prev_index pm in
    load_and_play be now prev_index
      (set_pm (PlaylistManager.set_current_index prev_index pm) vp).

Definition toggle_repeat (vp : t) : t :=
  let pm := playlist_manager vp in
  set_pm (PlaylistManager.set_repeat_mode
            ((PlaylistManager.repeat_mode pm + 1) mod 2) pm) vp.

(** [value] is the position of the progress scale ([self.progress.get()]),
    [t1] and [t2] the two readings of the clock. Errors of the backend calls
    are swallowed by the source. *)
Definition _seek_end (value : Q) (t1 t2 : Q) (vp : t) : t :=
  let ps := playback_state vp in
  if (negb (is_playing ps) || Qle_bool (track_length ps) 0)%bool then vp
  else if negb (Qle_bool (track_length ps) 0) then
    let ms := Py.int value in
    let sec := (inject_Z ms / 1000)%Q in
    let was_paused := is_paused ps in
    set_ps {| is_playing := is_playing ps; is_paused := is_paused ps;
              track_length := track_length ps;
              start_time := (t1 - sec)%Q;
              pause_accum := 0%Q;
              last_pause := if was_paused then t2 else 0%Q |} vp
  else vp.

(** The offset in seconds a release of the scale at [value] seeks to. *)
Definition seek_offset (value : Q) : Q := (inject_Z (Py.int value) / 1000)%Q.

Definition _elapsed_time (now : Q) (vp : t) : Q :=
  let ps := playback_state vp in
  if negb (is_playing ps) then 0%Q
  else if is_paused ps then
    Py.max0 ((last_pause ps - start_time ps) - pause_accum ps)%Q
  else
    Py.max0 ((now - start_time ps) - pause_accum ps)%Q.

Definition _handle_track_end (be : Backend) (now : Q) (vp : t) : Outcome * t :=
  if PlaylistManager.repeat_mode (playlist_manager vp) =? 1 then
    load_and_play be now
      (PlaylistManager.current_index (playlist_manager vp)) vp
  else next_track be now vp.

(** One tick. [busy] is [pygame.mixer.music.get_busy()], [now] the clock read
    by [_elapsed_time], [now'] the clock read if a track is then started.
    The result carries [None] when no end of track was handled. *)
Definition _update_ui (be : Backend) (busy : bool) (now now' : Q) (vp : t)
    : option Outcome * t :=
  let ps := playback_state vp in
  if is_playing ps then
    let elapsed := _elapsed_time now vp in
    if (negb busy && negb (is_paused ps))%bool then
      if (negb (Qeq_bool (track_length ps) 0)
          && Qle_bool (track_length ps - (1 # 4)) elapsed)%bool
      then let r := _handle_track_end be now' vp in (Some (fst r), snd r)
      else let r := _handle_track_end be now' vp in (Some (fst r), snd r)
    else (None, vp)
  else (None, vp).

End VinylPlayer.

(** ** Runs of the playlist store

    The operations a caller can apply to a [PlaylistManager]: its own methods
    and the cursor updates [VinylPlayer] performs on it. *)

Module Run.

Import PlaylistManager.

(** [random.shuffle] rearranges its argument. *)
Definition permutes (random_shuffle : list string -> list string) : Prop :=
  forall l, Permutation l (random_shuffle l).

(** The cursor update of [VinylPlayer.next_track] and [prev_track]. *)
Definition next_cursor (pm : t) : t :=
  if Py.is_empty (playlist pm) then pm
  else set_current_index (get_next_index pm) pm.

Definition prev_cursor (pm : t) : t :=
  if Py.is_empty (playlist pm) then pm
  else set_current_index (get_prev_index pm) pm.

Inductive op : Type :=
| AddFiles (files : list string)
| AddFolder (found : list string)
| RemoveItems (indices : list Z)
| Clear
| ToggleShuffle (random_shuffle : list string -> list string)
| ToggleRepeat
| NextTrack
| PrevTrack
| Select (i : Z).   (* the caller points the cursor at a listed track *)

Definition exec (o : op) (pm : t) : option t :=
  match o with
  | AddFiles files => Some (add_files files pm)
  | AddFolder found => Some (snd (add_folder found pm))
  | RemoveItems indices => Some (remove_items indices pm)
  | Clear => Some (clear pm)
  | ToggleShuffle random_shuffle => toggle_shuffle random_shuffle pm
  | ToggleRepeat => Some (set_repeat_mode ((repeat_mode pm + 1) mod 2) pm)
  | NextTrack => Some (next_cursor pm)
  | PrevTrack => Some (prev_cursor pm)
  | Select i => Some (set_current_index i pm)
  end.

(** What the environment guarantees about an operation's argument. *)
Definition admissible (pm : t) (o : op) : Prop :=
  match o with
  | ToggleShuffle random_shuffle => permutes random_shuffle
  | Select i => 0 <= i < Py.len (playlist pm)
  | _ => True
  end.

Inductive reachable : t -> Prop :=
| reach_init : reachable init
| reach_step : forall pm o pm',
    reachable pm -> admissible pm o -> exec o pm = Some pm' -> reachable pm'.

(** The playlist a sequence of operations builds when shuffling is left out
    of it: the order the tracks have before any shuffle. Meaningful for
    sequences without index-based removal. *)
Definition is_toggle (o : op) : bool :=
  match o with ToggleShuffle _ => true | _ => false end.

Fixpoint run (ops : list op) (pm : t) : option t :=
  match ops with
  | [] => Some pm
  | o :: rest =>
      match exec o pm with
      | Some pm' => run rest pm'
      | None => None
      end
  end.

Definition pre_shuffle_order (ops : list op) : option (list string) :=
  option_map playlist (run (filter (fun o => negb (is_toggle o)) ops) init).

(** The cursor selects nothing or a listed track. *)
Definition cursor_ok (pm : t) : Prop :=
  current_index pm = -1 \/ 0 <= current_index pm < Py.len (playlist pm).

(** The invariant of the store. *)
Record Inv (pm : t) : Prop := {
  inv_same_tracks : Permutation (original_order pm) (playlist pm);
  inv_snapshot : shuffle_mode pm = false -> original_order pm = playlist pm;
  inv_cursor : cursor_ok pm;
  inv_names : ~ In EmptyString (playlist pm)
}.

End Run.

(** ** Sample stores and players *)

Module Scenario.

(** A backend that cannot read ["bad.mp3"]; every track lasts three minutes. *)
Definition demo_backend : VinylPlayer.Backend :=
  {| VinylPlayer.load_ok := fun path => negb (String.eqb path "bad.mp3");
     VinylPlayer.probe_length := fun _ => 180%Q |}.

(** Two tracks, the second unreadable; the first started at time [100]. *)
Definition demo_playing : VinylPlayer.t :=
  snd (VinylPlayer.play_pause demo_backend 100%Q None
         (VinylPlayer.set_pm
            (PlaylistManager.add_files ["a.mp3"; "bad.mp3"]%string
               PlaylistManager.init)
            VinylPlayer.init)).

(** The same player, paused three seconds later. *)
Definition demo_paused : VinylPlayer.t :=
  snd (VinylPlayer.play_pause demo_backend 103%Q None demo_playing).


(** The playlist [A, B, C] with the cursor on [B]. *)
Definition three_tracks : PlaylistManager.t :=
  PlaylistManager.set_current_index 1
    (PlaylistManager.add_files ["A.mp3"; "B.mp3"; "C.mp3"]%string
       PlaylistManager.init).

(** The playlist [A, B, C, D] with the cursor on [C]; the text file offered
    along with the tracks is not taken. *)
Definition four_tracks : PlaylistManager.t :=
  PlaylistManager.set_current_index 2
    (PlaylistManager.add_files
       ["A.mp3"; "B.mp3"; "notes.txt"; "C.ogg"; "D.wav"]%string
       PlaylistManager.init).

(** Three tracks are added, shuffle is switched on (the shuffle reverses
    the list) and a fourth track is added. *)
Definition shuffled_add : list Run.op :=
  [Run.AddFiles ["A.mp3"; "B.mp3"; "C.mp3"]%string;
   Run.ToggleShuffle (@rev string);
   Run.AddFiles ["D.mp3"%string]].

(** [original_order] is the pre-shuffle order after the operations [ops]. *)
Definition keeps_pre_shuffle_order (ops : list Run.op) : Prop :=
  forall pm, Run.run ops PlaylistManager.init = Some pm ->
             Some (PlaylistManager.original_order pm)
             = Run.pre_shuffle_order ops.

End Scenario.

(** ** Widgets fed by the clock: the progress scale and the turning disc *)

Module Widgets.

(** [x % y] on floats for a positive [y]: the exact remainder, at least
    [0] and below [y]. (In binary64 the result for a negative [x] can round
    up to [y] itself.) *)
Definition fmod (x y : Q) : Q := (x - y * inject_Z (Qfloor (x / y)))%Q.

(** The upper end [to] that [load_and_play] gives the progress scale
    ([from_] is [0]). The product is taken exactly; in binary64 it can
    round up to the next integer. *)
Definition max_progress (track_length : Q) : Z :=
  if negb (Qeq_bool track_length 0)
  then Z.max 1 (Py.int (track_length * 1000)%Q)
  else 1000.

(** [_update_progress_display]: the position given to [self.progress.set],
    [None] while the user drags the scale. [now] is the clock read when
    the length is unknown. *)
Definition _update_progress_display (user_dragging : bool) (now elapsed : Q)
    (ps : PlaybackState.t) : option Z :=
  if negb (Qle_bool (PlaybackState.track_length ps) 0) then
    let ms := Py.int (elapsed * 1000)%Q in
    if negb user_dragging then
      let max_ms := Py.int (PlaybackState.track_length ps * 1000)%Q in
      Some (Z.max 0 (Z.min ms max_ms))
    else None
  else
    if negb user_dragging
    then Some (Py.int (fmod (now * 1000) 1000))
    else None.

(** [VinylVisualizer.update_rotation]: the new [self.angle]. *)
Definition deg_per_sec : Q := 200%Q.

Definition update_rotation (dt : Q) (is_playing is_paused : bool) (angle : Q)
    : Q :=
  if (is_playing && negb is_paused)%bool then
    fmod (angle + deg_per_sec * dt) 360
  else if (negb (Qeq_bool angle 0) && negb is_playing)%bool then 0%Q
  else angle.

End Widgets.

(** ** Removal of a selection, stated by position *)

Module Selection.

(** The entries of [l], numbered from [i], whose number is not listed. *)
Fixpoint keep_unlisted (i : Z) (indices : list Z) (l : list string)
    : list string :=
  match l with
  | [] => []
  | x :: t =>
      if existsb (Z.eqb i) indices then keep_unlisted (i + 1) indices t
      else x :: keep_unlisted (i + 1) indices t
  end.

(** Where a cursor at [cur] ends up: nowhere if its entry is removed,
    otherwise lowered by the number of removed entries before it. *)
Definition cursor_after (cur : Z) (indices : list Z) : Z :=
  if existsb (Z.eqb cur) indices then -1
  else cur - Py.len (filter (fun k => k <? cur) indices).

End Selection.

(** ** class VinylPlayer: the playlist panel

    The part of [VinylPlayer] that stands between the list box and the
    store: the search filter, the map [filtered_indices] from list box rows
    to playlist indices, and the handlers that go through it. The list box
    shows one row per entry of [filtered_indices]; a selection is the list
    of rows [curselection()] returns. [None] is an [IndexError]. *)

Module Panel.

Record t : Type := Build {
  player : VinylPlayer.t;
  search_var : string;           (* the text of the search entry *)
  filtered_indices : list Z
}.

Definition init : t :=
  {| player := VinylPlayer.init; search_var := EmptyString;
     filtered_indices := [] |}.

Definition set_player (vp : VinylPlayer.t) (p : t) : t :=
  {| player := vp; search_var := search_var p;
     filtered_indices := filtered_indices p |}.

Definition manager (p : t) : PlaylistManager.t :=
  VinylPlayer.playlist_manager (player p).

Definition set_manager (pm : PlaylistManager.t) (p : t) : t :=
  set_player (VinylPlayer.set_pm pm (player p)) p.

(** [os.path.basename]: what follows the last slash. *)
Definition basename (path : string) : string :=
  last (Py.split_on "/"%char path) EmptyString.

(** [needle in hay] on strings. *)
Fixpoint is_substring (needle hay : string) : bool :=
  if String.prefix needle hay then true
  else match hay with
       | EmptyString => false
       | String _ rest => is_substring needle rest
       end.

(** [enumerate(l)], counting from [i]. *)
Fixpoint enumerate_from (i : Z) (l : list string) : list (Z * string) :=
  match l with
  | [] => []
  | x :: rest => (i, x) :: enumerate_from (i + 1) rest
  end.

(** [not search_text or search_text in track_name.lower()] *)
Definition shown (search_text track : string) : bool :=
  (String.eqb search_text EmptyString
   || is_substring search_text (Py.lower (basename track)))%bool.

Definition filter_indices (search_text : string) (playlist : list string)
    : list Z :=
  map fst (filter (fun it => shown search_text (snd it))
                  (enumerate_from 0 playlist)).

Definition _refresh_playlist_display (p : t) : t :=
  let search_text := Py.lower (search_var p) in
  {| player := player p; search_var := search_var p;
     filtered_indices :=
       filter_indices search_text (PlaylistManager.playlist (manager p)) |}.

(** [self.filtered_indices.index(i)] *)
Fixpoint index_of (i : Z) (l : list Z) : option Z :=
  match l with
  | [] => None
  | j :: rest =>
      if i =? j then Some 0
      else match index_of i rest with
           | Some r => Some (r + 1)
           | None => None
           end
  end.

(** [_update_selection]: the row it selects in the list box, if any. *)
Definition _update_selection (p : t) : option Z :=
  let cur := PlaylistManager.current_index (manager p) in
  if 0 <=? cur then
    let display_index :=
      if negb (Py.is_empty (filtered_indices p)) then
        match index_of cur (filtered_indices p) with
        | Some r => r
        | None => -1
        end
      else cur in
    if 0 <=? display_index then Some display_index else None
  else None.

Definition _on_search (typed : string) (p : t) : t :=
  _refresh_playlist_display
    {| player := player p; search_var := typed;
       filtered_indices := filtered_indices p |}.

(** The playlist index behind row [row]:
    [self.filtered_indices[row]] if [self.filtered_indices] else [row]. *)
Definition actual_index (p : t) (row : Z) : option Z :=
  if negb (Py.is_empty (filtered_indices p))
  then Py.get (filtered_indices p) row
  else Some row.

(** [[self.filtered_indices[i] for i in selection]] *)
Fixpoint actual_indices (p : t) (selection : list Z) : option (list Z) :=
  match selection with
  | [] => Some []
  | row :: rest =>
      match Py.get (filtered_indices p) row, actual_indices p rest with
      | Some i, Some r => Some (i :: r)
      | _, _ => None
      end
  end.

(** [files] is what the file dialog returns, empty when cancelled. *)
Definition add_files (files : list string) (p : t) : t :=
  if Py.is_empty files then p
  else
    let p1 := _refresh_playlist_display
                (set_manager (PlaylistManager.add_files files (manager p)) p) in
    if ((PlaylistManager.current_index (manager p1) =? -1)
        && negb (Py.is_empty (PlaylistManager.playlist (manager p1))))%bool
    then set_manager (PlaylistManager.set_current_index 0 (manager p1)) p1
    else p1.

(** [found] is [None] when the folder dialog is cancelled, otherwise what
    the chosen folder holds. The flag tells that the "Empty Folder" box is
    shown. *)
Definition add_folder (found : option (list string)) (p : t) : bool * t :=
  match found with
  | None => (false, p)
  | Some found =>
      let r := PlaylistManager.add_folder found (manager p) in
      let p1 := _refresh_playlist_display (set_manager (snd r) p) in
      if fst r =? 0 then (true, p1)
      else if ((PlaylistManager.current_index (manager p1) =? -1)
               && negb (Py.is_empty (PlaylistManager.playlist (manager p1))))%bool
      then (false,
            set_manager (PlaylistManager.set_current_index 0 (manager p1)) p1)
      else (false, p1)
  end.

Definition remove_selected (selection : list Z) (p : t) : option t :=
  if Py.is_empty selection then Some p
  else
    match (if negb (Py.is_empty (filtered_indices p))
           then actual_indices p selection
           else Some selection) with
    | None => None
    | Some indices =>
        let p1 := _refresh_playlist_display
                    (set_manager
                       (PlaylistManager.remove_items indices (manager p)) p) in
        if Py.is_empty (PlaylistManager.playlist (manager p1))
        then Some (set_player (VinylPlayer.stop (player p1)) p1)
        else Some p1
    end.

Definition clear_playlist (p : t) : t :=
  {| player := VinylPlayer.stop
                 (VinylPlayer.set_pm (PlaylistManager.clear (manager p))
                                     (player p));
     search_var := search_var p;
     filtered_indices := [] |}.

Definition _double_click_play (be : VinylPlayer.Backend) (now : Q)
    (selection : list Z) (p : t) : option (VinylPlayer.Outcome * t) :=
  match selection with
  | [] => Some (VinylPlayer.Ignored, p)
  | row :: _ =>
      match actual_index p row with
      | None => None
      | Some i =>
          let r := VinylPlayer.load_and_play be now i
                     (VinylPlayer.set_pm
                        (PlaylistManager.set_current_index i (manager p))
                        (player p)) in
          Some (fst r, set_player (snd r) p)
      end
  end.

(** [play_pause] reads the selection only when it starts a track. *)
Definition play_pause (be : VinylPlayer.Backend) (now : Q)
    (selection : list Z) (p : t) : option (VinylPlayer.Outcome * t) :=
  let run (sel : option Z) :=
    let r := VinylPlayer.play_pause be now sel (player p) in
    Some (fst r, set_player (snd r) p) in
  if (Py.is_empty (PlaylistManager.playlist (manager p))
      || PlaybackState.is_playing (VinylPlayer.playback_state (player p)))%bool
  then run None
  else
    match selection with
    | [] => run None
    | row :: _ =>
        match actual_index p row with
        | None => None
        | Some i => run (Some i)
        end
    end.

Definition toggle_shuffle (random_shuffle : list string -> list string)
    (p : t) : option t :=
  match PlaylistManager.toggle_shuffle random_shuffle (manager p) with
  | Some pm => Some (_refresh_playlist_display (set_manager pm p))
  | None => None
  end.

(** What the user and the timer do to the panel. *)
Inductive event : Type :=
| AddFiles (files : list string)
| AddFolder (found : option (list string))
| RemoveSelected (selection : list Z)
| ClearPlaylist
| Search (typed : string)
| DoubleClick (be : VinylPlayer.Backend) (now : Q) (selection : list Z)
| PlayPause (be : VinylPlayer.Backend) (now : Q) (selection : list Z)
| Stop
| NextTrack (be : VinylPlayer.Backend) (now : Q)
| PrevTrack (be : VinylPlayer.Backend) (now : Q)
| ToggleRepeat
| ToggleShuffle (random_shuffle : list string -> list string)
| SeekEnd (value t1 t2 : Q)
| Tick (be : VinylPlayer.Backend) (busy : bool) (now now' : Q).

Definition handle (e : event) (p : t) : option t :=
  match e with
  | AddFiles files => Some (add_files files p)
  | AddFolder found => Some (snd (add_folder found p))
  | RemoveSelected selection => remove_selected selection p
  | ClearPlaylist => Some (clear_playlist p)
  | Search typed => Some (_on_search typed p)
  | DoubleClick be now selection =>
      option_map snd (_double_click_play be now selection p)
  | PlayPause be now selection =>
      option_map snd (play_pause be now selection p)
  | Stop => Some (set_player (VinylPlayer.stop (player p)) p)
  | NextTrack be now =>
      Some (set_player (snd (VinylPlayer.next_track be now (player p))) p)
  | PrevTrack be now =>
      Some (set_player (snd (VinylPlayer.prev_track be now (player p))) p)
  | ToggleRepeat => Some (set_player (VinylPlayer.toggle_repeat (player p)) p)
  | ToggleShuffle random_shuffle => toggle_shuffle random_shuffle p
  | SeekEnd value t1 t2 =>
      Some (set_player (VinylPlayer._seek_end value t1 t2 (player p)) p)
  | Tick be busy now now' =>
      Some (set_player (snd (VinylPlayer._update_ui be busy now now' (player p)))
                       p)
  end.

(** A selection the list box can return: distinct rows that exist. *)
Definition rows_ok (p : t) (selection : list Z) : Prop :=
  NoDup selection
  /\ Forall (fun row => 0 <= row < Py.len (filtered_indices p)) selection.

(** What the widgets and the libraries guarantee about an event. *)
Definition possible (p : t) (e : event) : Prop :=
  match e with
  | RemoveSelected selection
  | DoubleClick _ _ selection
  | PlayPause _ _ selection => rows_ok p selection
  | ToggleShuffle random_shuffle => Run.permutes random_shuffle
  | _ => True
  end.

Inductive reachable : t -> Prop :=
| reach_init : reachable init
| reach_event : forall p e p',
    reachable p -> possible p e -> handle e p = Some p' -> reachable p'.

(** The panel is in step with the store. *)
Record Inv (p : t) : Prop := {
  inv_store : Run.Inv (manager p);
  inv_fresh : filtered_indices p
              = filter_indices (Py.lower (search_var p))
                               (PlaylistManager.playlist (manager p))
}.

End Panel.

(** ** Sample panels *)

Module PanelScenario.

(** Four tracks chosen in the file dialog; the text file is not taken. *)
Definition demo_panel : Panel.t :=
  Panel.add_files ["A.mp3"; "B.mp3"; "notes.txt"; "C.ogg"; "D.wav"]%string
    Panel.init.

(** The same panel after [MP3] is typed into the search entry. *)
Definition searched_panel : Panel.t := Panel._on_search "MP3" demo_panel.

End PanelScenario.

(** ** The seek arithmetic in binary64

    The two lines that decide what a clock reads right after a seek,
    [start_time = time.time() - sec] and [_elapsed_time], in the binary64
    arithmetic of Python floats, where the subtractions round. *)

Module Binary64.

(** [max(0.0, x)] *)
Definition max0 (x : float) : float :=
  if PrimFloat.ltb 0%float x then x else 0%float.

(** [sec = ms / 1000.0] *)
Definition seek_offset (ms : float) : float := PrimFloat.div ms 1000%float.

(** [self.playback_state.start_time = time.time() - sec] *)
Definition seek_anchor (now sec : float) : float := PrimFloat.sub now sec.

(** [_elapsed_time] of a paused clock. *)
Definition elapsed_paused (last_pause start_time pause_accum : float) : float :=
  max0 (PrimFloat.sub (PrimFloat.sub last_pause start_time) pause_accum).

(** [_elapsed_time] of a playing clock read at [now]. *)
Definition elapsed_playing (now start_time pause_accum : float) : float :=
  max0 (PrimFloat.sub (PrimFloat.sub now start_time) pause_accum).

End Binary64.

(** ** Further sample stores *)

Module ShuffleScenario.

(** A shuffle that moves the first track to the end. *)
Definition rotate (l : list string) : list string :=
  match l with
  | [] => []
  | x :: rest => rest ++ [x]
  end.

(** Three tracks with no selection, shuffled to [C, B, A]. *)
Definition shuffled_store : PlaylistManager.t :=
  {| PlaylistManager.playlist := ["C.mp3"; "B.mp3"; "A.mp3"]%string;
     PlaylistManager.original_order := ["A.mp3"; "B.mp3"; "C.mp3"]%string;
     PlaylistManager.current_index := -1;
     PlaylistManager.repeat_mode := 0;
     PlaylistManager.shuffle_mode := true |}.


End ShuffleScenario.

(** ** Plain text *)

Module Text.

(** Every character is an ASCII character. On such strings [Py.lower] is
    [str.lower()] and bytes are characters. *)
Fixpoint is_ascii (s : string) : bool :=
  match s with
  | EmptyString => true
  | String c rest => (Nat.ltb (nat_of_ascii c) 128 && is_ascii rest)%bool
  end.

End Text.

(** * Properties *)

(** ** The playback clock *)

Section Clock.

Import PlaybackState VinylPlayer Scenario.

Lemma max0_nonneg (x : Q) : (0 <= x)%Q -> (Py.max0 x == x)%Q.
Proof. intros H. unfold Py.max0. now apply Q.max_r. Qed.

Lemma int_nonneg (x : Q) : (0 <= x)%Q -> 0 <= Py.int x.
Proof.
  intros H. unfold Py.int.
  destruct (Qle_bool 0 x) eqn:E.
  - change 0 with (Qfloor 0). now apply Qfloor_resp_le.
  - rewrite <- Qle_bool_iff in H. congruence.
Qed.

Lemma seek_offset_nonneg (value : Q) : (0 <= value)%Q -> (0 <= seek_offset value)%Q.
Proof.
  intros H. unfold seek_offset.
  apply int_nonneg in H.
  apply Qle_shift_div_l; [reflexivity|].
  rewrite Qmult_0_l. change 0%Q with (inject_Z 0).
  now rewrite <- Zle_Qle.
Qed.

(** C2. [_elapsed_time] is [0] when Stopped, the clamped distance from the
    anchor to the moment of the pause (less the accumulated pauses) when
    Paused, whatever the current time is, and the clamped distance from the
    anchor to the current time (less the accumulated pauses) when Playing. *)
Theorem elapsed_by_phase (now now' : Q) (vp : VinylPlayer.t) :
  let ps := playback_state vp in
  _elapsed_time now vp =
    match phase ps with
    | Stopped => 0%Q
    | Paused => Qmax 0 ((last_pause ps - start_time ps) - pause_accum ps)
    | Playing => Qmax 0 ((now - start_time ps) - pause_accum ps)
    end
  /\ match phase ps with
     | Playing => True
     | _ => _elapsed_time now' vp = _elapsed_time now vp
     end.
Proof.
  unfold _elapsed_time, phase, Py.max0; simpl.
  destruct (is_playing (playback_state vp)), (is_paused (playback_state vp));
    simpl; split; reflexivity || exact I.
Qed.

(** C3, as the code has it. A seek on a clock that is not Stopped and knows
    the track length reads the clock twice, at [t1] and then at [t2]. It sets
    [start_time] to [t1 - S], [pause_accum] to [0] and [last_pause] to [t2]
    if the clock was Paused and to [0] otherwise, where [S] is the offset
    sought, and keeps the phase. In exact arithmetic the clock then reads [S]
    plus the time gone by since the first reading: [S + (t2 - t1)], frozen,
    when Paused, and [S + (t - t1)] at a time [t] when Playing. It reads [S]
    itself when the two readings and the time of reading coincide. *)
Theorem seek_resets_anchor (value t1 t2 : Q) (vp : VinylPlayer.t) :
  phase (playback_state vp) <> Stopped ->
  (0 < track_length (playback_state vp))%Q ->
  (0 <= value)%Q ->
  (t1 <= t2)%Q ->
  let S := seek_offset value in
  let ps := playback_state vp in
  let vp' := _seek_end value t1 t2 vp in
  let ps' := playback_state vp' in
  start_time ps' = (t1 - S)%Q
  /\ pause_accum ps' = 0%Q
  /\ last_pause ps' = (if is_paused ps then t2 else 0%Q)
  /\ phase ps' = phase ps
  /\ (phase ps = Paused ->
      forall t, (_elapsed_time t vp' == S + (t2 - t1))%Q)
  /\ (phase ps = Playing ->
      forall t, (t1 <= t)%Q -> (_elapsed_time t vp' == S + (t - t1))%Q)
  /\ ((t2 == t1)%Q -> (_elapsed_time t1 vp' == S)%Q).
Proof.
  intros Hph Hlen Hval Ht S ps vp' ps'.
  assert (HS : (0 <= S)%Q) by now apply seek_offset_nonneg.
  subst ps' vp' ps. unfold _elapsed_time, _seek_end, phase in *.
  destruct (playback_state vp) as [playing paused len st acc lp] eqn:Eps.
  simpl in *.
  destruct playing; [|congruence].
  destruct (Qle_bool len 0) eqn:E.
  { apply Qle_bool_iff in E. lra. }
  simpl. fold (seek_offset value). fold S.
  split; [reflexivity|]. split; [reflexivity|]. split; [reflexivity|].
  split; [reflexivity|].
  destruct paused.
  - split; [|split].
    + intros _ t. rewrite max0_nonneg; lra.
    + discriminate.
    + intros He. rewrite max0_nonneg; lra.
  - split; [|split].
    + discriminate.
    + intros _ t Hle. rewrite max0_nonneg; lra.
    + intros He. rewrite max0_nonneg; lra.
Qed.

(** The paused player, its scale released at 42.5 seconds, with the clock
    read at [110] and half a second later. *)
Lemma seek_resets_anchor_witness :
  phase (playback_state (_seek_end 42500%Q 110%Q (221 # 2) demo_paused))
    = Paused
  /\ (_elapsed_time 300%Q (_seek_end 42500%Q 110%Q (221 # 2) demo_paused)
      == 43)%Q.
Proof.
  destruct (seek_resets_anchor 42500%Q 110%Q (221 # 2) demo_paused)
    as (_ & _ & _ & Hph & Hel & _).
  - vm_compute. discriminate.
  - vm_compute. reflexivity.
  - vm_compute. discriminate.
  - vm_compute. discriminate.
  - split.
    + exact Hph.
    + rewrite (Hel eq_refl 300%Q). vm_compute. reflexivity.
Defined.

(** C3, as the specification words it, fails in two ways. The paused player
    whose scale is released at 42.5 seconds, with the second clock reading
    half a second after the first, reads 43 seconds, not 42.5. And with both
    readings at the same instant, in binary64 the anchor [now - sec] has
    been rounded, so that a paused clock sought to one millisecond at an
    epoch-sized time does not read one millisecond. *)
Lemma seek_does_not_read_the_offset :
  (let vp' := _seek_end 42500%Q 110%Q (221 # 2) demo_paused in
   phase (playback_state demo_paused) = Paused
   /\ (seek_offset 42500 == 85 # 2)%Q
   /\ (_elapsed_time (221 # 2) vp' == 43)%Q
   /\ ~ (_elapsed_time (221 # 2) vp' == seek_offset 42500)%Q)
  /\ (let now := 1762180000.125%float in
      let sec := Binary64.seek_offset 1%float in
      PrimFloat.eqb
        (Binary64.elapsed_paused now (Binary64.seek_anchor now sec) 0%float)
        sec = false).
Proof.
  split.
  - cbv zeta. split; [reflexivity|]. split; [reflexivity|].
    split; [reflexivity|]. intros H. vm_compute in H. discriminate H.
  - vm_compute. reflexivity.
Qed.

End Clock.

(** ** End of track and load failure *)

Section Transport.

Import PlaybackState VinylPlayer Scenario.

Lemma load_and_play_keeps_manager be now index vp :
  playlist_manager (snd (load_and_play be now index vp)) = playlist_manager vp.
Proof.
  unfold load_and_play.
  destruct (_ || _)%bool; [reflexivity|].
  destruct (load_ok be _); reflexivity.
Qed.

Lemma load_and_play_started be now index vp :
  0 <= index < Py.len (PlaylistManager.playlist (playlist_manager vp)) ->
  load_ok be (nth (Z.to_nat index)
                (PlaylistManager.playlist (playlist_manager vp))
                EmptyString) = true ->
  let ps' := playback_state (snd (load_and_play be now index vp)) in
  phase ps' = Playing /\ start_time ps' = now
  /\ pause_accum ps' = 0%Q /\ last_pause ps' = 0%Q.
Proof.
  intros Hidx Hok. unfold load_and_play.
  replace (index <? 0) with false by (symmetry; apply Z.ltb_ge; lia).
  replace (_ <=? index) with false by (symmetry; apply Z.leb_gt; lia).
  simpl. rewrite Hok. simpl. repeat split.
Qed.

(** C1, as the code has it. When the backend refuses the file,
    [load_and_play] reports the load error and returns at once, leaving the
    whole player as it was: the playback clock keeps its phase and anchors
    (Stopped if it was Stopped, still Playing or Paused otherwise) and the
    cursor, which [next_track] and [prev_track] have moved to the track
    before the call, stays on the failed track. *)
Theorem load_failure_leaves_state (be : Backend) (now : Q) (index : Z)
    (vp : VinylPlayer.t) :
  let pl := PlaylistManager.playlist (playlist_manager vp) in
  let path := nth (Z.to_nat index) pl EmptyString in
  0 <= index < Py.len pl ->
  load_ok be path = false ->
  load_and_play be now index vp = (LoadError path, vp)
  /\ (let moved :=
        set_pm (PlaylistManager.set_current_index index (playlist_manager vp))
               vp in
      let r := load_and_play be now index moved in
      fst r = LoadError path
      /\ playback_state (snd r) = playback_state vp
      /\ phase (playback_state (snd r)) = phase (playback_state vp)
      /\ PlaylistManager.current_index (playlist_manager (snd r)) = index).
Proof.
  intros pl path Hidx Hbad.
  assert (Hfail : forall q,
            PlaylistManager.playlist (playlist_manager q) = pl ->
            load_and_play be now index q = (LoadError path, q)).
  { intros q Hq. unfold load_and_play. rewrite Hq.
    replace (index <? 0) with false by (symmetry; apply Z.ltb_ge; lia).
    replace (_ <=? index) with false by (symmetry; apply Z.leb_gt; lia).
    simpl. fold path. now rewrite Hbad. }
  split; [now apply Hfail|].
  intros moved r. subst r. rewrite (Hfail moved eq_refl).
  repeat split.
Qed.

Lemma load_failure_leaves_state_witness :
  load_and_play demo_backend 130%Q 1 demo_paused
  = (LoadError "bad.mp3", demo_paused).
Proof.
  apply (load_failure_leaves_state demo_backend 130%Q 1 demo_paused).
  - vm_compute. split; [discriminate | reflexivity].
  - reflexivity.
Defined.

(** C1, as the specification words it, fails. Skipping from the playing
    first track to the unreadable second one reports the load error and
    leaves the cursor on the failed track, but the clock is still Playing
    with its old anchor: it has not been reset. *)
Lemma load_failure_clock_not_reset :
  let r := next_track demo_backend 130%Q demo_playing in
  phase (playback_state demo_playing) = Playing
  /\ fst r = LoadError "bad.mp3"
  /\ PlaylistManager.current_index (playlist_manager (snd r)) = 1
  /\ phase (playback_state (snd r)) = Playing
  /\ start_time (playback_state (snd r)) = 100%Q
  /\ playback_state (snd r) <> PlaybackState.reset.
Proof.
  cbv zeta. repeat split. discriminate.
Qed.

End Transport.

(** ** The cursor *)

Section Cursor.

Import PlaylistManager Run Scenario.

Lemma is_empty_false {A : Type} (l : list A) :
  l <> [] -> Py.is_empty l = false.
Proof. destruct l; [congruence | reflexivity]. Qed.

Lemma len_pos {A : Type} (l : list A) : l <> [] -> 0 < Py.len l.
Proof. destruct l; [congruence|]. unfold Py.len; simpl; lia. Qed.

Lemma len_nonneg {A : Type} (l : list A) : 0 <= Py.len l.
Proof. unfold Py.len; lia. Qed.

Lemma get_next_index_off pm :
  playlist pm <> [] -> repeat_mode pm <> 1 ->
  get_next_index pm = (current_index pm + 1) mod Py.len (playlist pm).
Proof.
  intros Hne Hrep. unfold get_next_index.
  rewrite (is_empty_false _ Hne).
  apply Z.eqb_neq in Hrep. now rewrite Hrep.
Qed.

Lemma get_prev_index_off pm :
  playlist pm <> [] -> repeat_mode pm <> 1 ->
  get_prev_index pm = (current_index pm - 1) mod Py.len (playlist pm).
Proof.
  intros Hne Hrep. unfold get_prev_index.
  rewrite (is_empty_false _ Hne).
  apply Z.eqb_neq in Hrep. now rewrite Hrep.
Qed.

Lemma next_cursor_off pm :
  playlist pm <> [] -> repeat_mode pm <> 1 ->
  next_cursor pm
  = set_current_index ((current_index pm + 1) mod Py.len (playlist pm)) pm.
Proof.
  intros Hne Hrep. unfold next_cursor.
  now rewrite (is_empty_false _ Hne), get_next_index_off.
Qed.

Lemma prev_cursor_off pm :
  playlist pm <> [] -> repeat_mode pm <> 1 ->
  prev_cursor pm
  = set_current_index ((current_index pm - 1) mod Py.len (playlist pm)) pm.
Proof.
  intros Hne Hrep. unfold prev_cursor.
  now rewrite (is_empty_false _ Hne), get_prev_index_off.
Qed.

Lemma iter_next_cursor (k : nat) pm :
  playlist pm <> [] -> repeat_mode pm <> 1 ->
  let pm' := Nat.iter k next_cursor pm in
  playlist pm' = playlist pm /\ repeat_mode pm' = repeat_mode pm
  /\ current_index pm' mod Py.len (playlist pm)
     = (current_index pm + Z.of_nat k) mod Py.len (playlist pm)
  /\ (k <> O -> 0 <= current_index pm' < Py.len (playlist pm)).
Proof.
  intros Hne Hrep. pose proof (len_pos _ Hne) as Hpos.
  induction k as [|k IH].
  - simpl. repeat split; [now rewrite Z.add_0_r | congruence | congruence].
  - destruct IH as (Hpl & Hrp & Hcur & _).
    change (Nat.iter (S k) next_cursor pm)
      with (next_cursor (Nat.iter k next_cursor pm)).
    rewrite next_cursor_off by congruence.
    cbn [playlist repeat_mode current_index set_current_index].
    rewrite Hpl.
    repeat split; try assumption; try (apply Z.mod_pos_bound; lia).
    rewrite Z.mod_mod by lia.
    rewrite <- Z.add_mod_idemp_l, Hcur, Z.add_mod_idemp_l by lia.
    f_equal. lia.
Qed.

Lemma iter_prev_cursor (k : nat) pm :
  playlist pm <> [] -> repeat_mode pm <> 1 ->
  let pm' := Nat.iter k prev_cursor pm in
  playlist pm' = playlist pm /\ repeat_mode pm' = repeat_mode pm
  /\ current_index pm' mod Py.len (playlist pm)
     = (current_index pm - Z.of_nat k) mod Py.len (playlist pm)
  /\ (k <> O -> 0 <= current_index pm' < Py.len (playlist pm)).
Proof.
  intros Hne Hrep. pose proof (len_pos _ Hne) as Hpos.
  induction k as [|k IH].
  - simpl. repeat split; [now rewrite Z.sub_0_r | congruence | congruence].
  - destruct IH as (Hpl & Hrp & Hcur & _).
    change (Nat.iter (S k) prev_cursor pm)
      with (prev_cursor (Nat.iter k prev_cursor pm)).
    rewrite prev_cursor_off by congruence.
    cbn [playlist repeat_mode current_index set_current_index].
    rewrite Hpl.
    repeat split; try assumption; try (apply Z.mod_pos_bound; lia).
    rewrite Z.mod_mod by lia.
    rewrite <- Zminus_mod_idemp_l, Hcur, Zminus_mod_idemp_l.
    f_equal. lia.
Qed.

(** C7. On a non-empty playlist with repeat off and a cursor on a track,
    [get_next_index] is [(current_index + 1) mod len] and [get_prev_index] is
    [(current_index - 1) mod len], which from [0] is the last index; moving
    the cursor [len] times forward, or [len] times backward, brings it back
    to where it was. On an empty playlist both return [-1]. *)
Theorem next_prev_wrap_around :
  (forall pm, playlist pm = [] ->
     get_next_index pm = -1 /\ get_prev_index pm = -1)
  /\ (forall pm,
        playlist pm <> [] -> repeat_mode pm = 0 ->
        0 <= current_index pm < Py.len (playlist pm) ->
        let n := Py.len (playlist pm) in
        get_next_index pm = (current_index pm + 1) mod n
        /\ get_prev_index pm = (current_index pm - 1) mod n
        /\ (current_index pm = 0 -> get_prev_index pm = n - 1)
        /\ current_index (Nat.iter (List.length (playlist pm)) next_cursor pm)
           = current_index pm
        /\ current_index (Nat.iter (List.length (playlist pm)) prev_cursor pm)
           = current_index pm).
Proof.
  split.
  - intros pm He. unfold get_next_index, get_prev_index. now rewrite He.
  - intros pm Hne Hrep Hcur n.
    assert (Hrep' : repeat_mode pm <> 1) by lia.
    pose proof (len_pos _ Hne) as Hpos. fold n in Hpos, Hcur.
    assert (Hlen : List.length (playlist pm) <> O).
    { destruct (playlist pm); simpl; congruence. }
    split; [now apply get_next_index_off|].
    split; [now apply get_prev_index_off|].
    split.
    { intros H0. rewrite get_prev_index_off by assumption. fold n.
      rewrite H0. replace (0 - 1) with (n - 1 + (-1) * n) by lia.
      rewrite Z.mod_add by lia. apply Z.mod_small. lia. }
    split.
    + destruct (iter_next_cursor (List.length (playlist pm)) pm Hne Hrep')
        as (_ & _ & Hmod & Hrange).
      specialize (Hrange Hlen). fold n in Hmod, Hrange.
      rewrite Z.mod_small in Hmod by lia. rewrite Hmod.
      replace (current_index pm + Z.of_nat (List.length (playlist pm)))
        with (current_index pm + 1 * n) by (unfold n, Py.len; lia).
      rewrite Z.mod_add by lia. apply Z.mod_small. lia.
    + destruct (iter_prev_cursor (List.length (playlist pm)) pm Hne Hrep')
        as (_ & _ & Hmod & Hrange).
      specialize (Hrange Hlen). fold n in Hmod, Hrange.
      rewrite Z.mod_small in Hmod by lia. rewrite Hmod.
      replace (current_index pm - Z.of_nat (List.length (playlist pm)))
        with (current_index pm + (-1) * n) by (unfold n, Py.len; lia).
      rewrite Z.mod_add by lia. apply Z.mod_small. lia.
Qed.

Lemma next_prev_wrap_around_witness :
  get_next_index init = -1
  /\ get_prev_index (set_current_index 0 four_tracks) = 3
  /\ current_index (Nat.iter 4 next_cursor four_tracks) = 2.
Proof.
  destruct next_prev_wrap_around as [Hempty Hwrap].
  split; [apply (Hempty init); reflexivity|].
  split.
  - destruct (Hwrap (set_current_index 0 four_tracks)) as (_ & _ & H & _).
    + discriminate.
    + reflexivity.
    + vm_compute. split; [discriminate | reflexivity].
    + apply H. reflexivity.
  - destruct (Hwrap four_tracks) as (_ & _ & _ & H & _).
    + discriminate.
    + reflexivity.
    + vm_compute. split; [discriminate | reflexivity].
    + exact H.
Defined.

(** C10. On a non-empty playlist with repeat off and no track selected
    ([current_index = -1]), [get_next_index] is [0] and [get_prev_index] is
    [(len - 2) mod len]: the second-to-last index once there are two tracks,
    not the last one. *)
Theorem no_selection_next_prev pm :
  playlist pm <> [] -> repeat_mode pm = 0 -> current_index pm = -1 ->
  let n := Py.len (playlist pm) in
  get_next_index pm = 0
  /\ get_prev_index pm = (n - 2) mod n
  /\ (2 <= n -> get_prev_index pm = n - 2 /\ get_prev_index pm <> n - 1).
Proof.
  intros Hne Hrep Hcur n.
  assert (Hrep' : repeat_mode pm <> 1) by lia.
  pose proof (len_pos _ Hne) as Hpos. fold n in Hpos.
  rewrite get_next_index_off, get_prev_index_off by assumption.
  fold n. rewrite Hcur. simpl.
  assert (Hprev : (-2) mod n = (n - 2) mod n).
  { replace (-2) with (n - 2 + (-1) * n) by lia. now rewrite Z.mod_add by lia. }
  split; [apply Z.mod_0_l; lia|].
  split; [exact Hprev|].
  intros H2. rewrite Hprev, Z.mod_small by lia. lia.
Qed.

Lemma no_selection_next_prev_witness :
  get_next_index (set_current_index (-1) four_tracks) = 0
  /\ get_prev_index (set_current_index (-1) four_tracks) = 2.
Proof.
  destruct (no_selection_next_prev (set_current_index (-1) four_tracks))
    as (Hn & _ & Hp).
  - discriminate.
  - reflexivity.
  - reflexivity.
  - split; [exact Hn|]. apply Hp. vm_compute. discriminate.
Defined.

End Cursor.

(** ** Facts about the list operations *)

Section ListFacts.

Lemma get_in_range {A : Type} (l : list A) (i : Z) :
  0 <= i < Py.len l -> exists x, Py.get l i = Some x
                                 /\ nth_error l (Z.to_nat i) = Some x.
Proof.
  intros Hi. unfold Py.get.
  replace (i <? 0) with false by (symmetry; apply Z.ltb_ge; lia).
  destruct (nth_error l (Z.to_nat i)) as [x|] eqn:E.
  - now exists x.
  - apply nth_error_None in E. unfold Py.len in Hi. lia.
Qed.

Lemma get_past_end {A : Type} (l : list A) (i : Z) :
  Py.len l <= i -> Py.get l i = None.
Proof.
  intros Hi. unfold Py.get. pose proof (len_nonneg l).
  replace (i <? 0) with false by (symmetry; apply Z.ltb_ge; lia).
  apply nth_error_None. unfold Py.len in Hi. lia.
Qed.

Lemma remove_nth_length {A : Type} (n : nat) (l : list A) :
  (n < List.length l)%nat ->
  List.length (Py.remove_nth n l) = (List.length l - 1)%nat.
Proof.
  revert n. induction l as [|x l IH]; intros [|n] H; simpl in *; try lia.
  rewrite IH by lia. lia.
Qed.

Lemma remove_nth_len {A : Type} (k : Z) (l : list A) :
  0 <= k < Py.len l ->
  Py.len (Py.remove_nth (Z.to_nat k) l) = Py.len l - 1.
Proof.
  intros Hk. unfold Py.len in *. rewrite remove_nth_length by lia. lia.
Qed.

Lemma remove_nth_perm {A : Type} (n : nat) (l : list A) (x : A) :
  nth_error l n = Some x -> Permutation (x :: Py.remove_nth n l) l.
Proof.
  revert n. induction l as [|y l IH]; intros [|n] H; simpl in *;
    try discriminate.
  - injection H as ->. reflexivity.
  - rewrite perm_swap. constructor. now apply IH.
Qed.

Lemma remove_nth_in {A : Type} (n : nat) (l : list A) (x : A) :
  In x (Py.remove_nth n l) -> In x l.
Proof.
  revert n. induction l as [|y l IH]; intros [|n] H; simpl in *; auto.
  destruct H as [H|H]; [now left | right; eauto].
Qed.

Lemma contains_in (x : string) (l : list string) :
  Py.contains x l = true <-> In x l.
Proof.
  unfold Py.contains. rewrite existsb_exists. split.
  - intros (y & Hy & E). apply String.eqb_eq in E. now subst.
  - intros H. exists x. split; [assumption | apply String.eqb_refl].
Qed.

Lemma index_range (x : string) (l : list string) (i : Z) :
  Py.index x l = Some i -> 0 <= i < Py.len l.
Proof.
  revert i. induction l as [|y l IH]; intros i H; simpl in H;
    [discriminate|].
  unfold Py.len in *. simpl List.length.
  destruct (String.eqb x y).
  - injection H as <-. lia.
  - destruct (Py.index x l) as [j|]; [|discriminate].
    injection H as <-. specialize (IH j eq_refl). lia.
Qed.

Lemma index_in (x : string) (l : list string) :
  In x l -> exists i, Py.index x l = Some i.
Proof.
  induction l as [|y l IH]; intros H; simpl in *; [contradiction|].
  destruct (String.eqb x y) eqn:E; [now exists 0|].
  destruct H as [H|H].
  - subst. rewrite String.eqb_refl in E. discriminate.
  - destruct (IH H) as [i ->]. now exists (i + 1).
Qed.

Lemma index_nodup (l : list string) (n : nat) (x : string) :
  NoDup l -> nth_error l n = Some x -> Py.index x l = Some (Z.of_nat n).
Proof.
  revert n. induction l as [|y l IH]; intros [|n] Hnd H; simpl in *;
    try discriminate.
  - injection H as ->. now rewrite String.eqb_refl.
  - inversion Hnd as [|? ? Hnotin Hnd']; subst.
    destruct (String.eqb x y) eqn:E.
    + apply String.eqb_eq in E. subst. apply nth_error_In in H. contradiction.
    + rewrite (IH n Hnd' H). f_equal. lia.
Qed.

Lemma add_loop_spec (files pl : list string) :
  fold_left PlaylistManager.append_if_supported files pl
  = pl ++ filter AudioFormats.supported files.
Proof.
  revert pl. induction files as [|f files IH]; intros pl; simpl.
  - now rewrite app_nil_r.
  - rewrite IH. unfold PlaylistManager.append_if_supported.
    destruct (AudioFormats.supported f); [|reflexivity].
    now rewrite <- app_assoc.
Qed.

Lemma add_folder_loop_spec (found pl : list string) (c : Z) :
  fold_left
    (fun (acc : Z * list string) (file_path : string) =>
       if AudioFormats.supported file_path
       then (fst acc + 1, snd acc ++ [file_path]) else acc)
    found (c, pl)
  = (c + Py.len (filter AudioFormats.supported found),
     pl ++ filter AudioFormats.supported found).
Proof.
  revert pl c. induction found as [|f found IH]; intros pl c; simpl.
  - unfold Py.len. simpl. now rewrite app_nil_r, Z.add_0_r.
  - destruct (AudioFormats.supported f); simpl; rewrite IH; [|reflexivity].
    rewrite <- app_assoc. unfold Py.len. simpl List.length. f_equal. lia.
Qed.

Lemma supported_named (f : string) :
  AudioFormats.supported f = true -> f <> EmptyString.
Proof. intros H ->. discriminate H. Qed.

Lemma filter_supported_named (files : list string) :
  ~ In EmptyString (filter AudioFormats.supported files).
Proof.
  intros H. apply filter_In in H. destruct H as [_ H].
  now apply supported_named in H.
Qed.

(** [sorted(..., reverse=True)] *)

Lemma insert_desc_perm (x : Z) (l : list Z) :
  Permutation (Py.insert_desc x l) (x :: l).
Proof.
  induction l as [|y l IH]; simpl; [reflexivity|].
  destruct (y <=? x); [reflexivity|].
  rewrite IH. apply perm_swap.
Qed.

Lemma sorted_reverse_perm (l : list Z) : Permutation (Py.sorted_reverse l) l.
Proof.
  induction l as [|x l IH]; simpl; [reflexivity|].
  rewrite insert_desc_perm. now constructor.
Qed.

Lemma insert_desc_sorted (x : Z) (l : list Z) :
  Sorted.StronglySorted Z.ge l ->
  Sorted.StronglySorted Z.ge (Py.insert_desc x l).
Proof.
  induction 1 as [|y l Hs IH Hall]; simpl.
  - repeat constructor.
  - destruct (y <=? x) eqn:E.
    + apply Z.leb_le in E. constructor; [now constructor|].
      constructor; [lia|].
      eapply Forall_impl; [|exact Hall]. simpl. intros; lia.
    + apply Z.leb_gt in E. constructor; [assumption|].
      eapply Permutation_Forall.
      * symmetry. apply insert_desc_perm.
      * constructor; [lia | assumption].
Qed.

Lemma sorted_reverse_sorted (l : list Z) :
  Sorted.StronglySorted Z.ge (Py.sorted_reverse l).
Proof.
  induction l as [|x l IH]; simpl; [constructor|].
  now apply insert_desc_sorted.
Qed.

Lemma insert_desc_comm (x y : Z) (l : list Z) :
  Py.insert_desc x (Py.insert_desc y l) = Py.insert_desc y (Py.insert_desc x l).
Proof.
  induction l as [|z l IH]; simpl.
  - destruct (y <=? x) eqn:E1, (x <=? y) eqn:E2; try reflexivity.
    + apply Z.leb_le in E1, E2. f_equal; [lia | f_equal; lia].
    + apply Z.leb_gt in E1, E2. lia.
  - destruct (z <=? y) eqn:Ey, (z <=? x) eqn:Ex; simpl;
      rewrite ?Ey, ?Ex;
      destruct (y <=? x) eqn:E1, (x <=? y) eqn:E2; simpl;
      rewrite ?Ey, ?Ex; try reflexivity;
      try (apply Z.leb_le in E1, E2; f_equal; [lia | f_equal; lia]);
      try (rewrite ?Z.leb_le, ?Z.leb_gt in *; lia);
      try (now rewrite IH).
Qed.

Lemma sorted_reverse_order_free (l1 l2 : list Z) :
  Permutation l1 l2 -> Py.sorted_reverse l1 = Py.sorted_reverse l2.
Proof.
  induction 1; simpl; try congruence.
  apply insert_desc_comm.
Qed.

End ListFacts.

(** ** Removal *)

Section Removal.

Import PlaylistManager Run Scenario.

Lemma remove_step_skip pm k :
  ~ 0 <= k < Py.len (playlist pm) -> remove_step pm k = pm.
Proof.
  intros Hk. unfold remove_step.
  destruct (0 <=? k) eqn:E1, (k <? Py.len (playlist pm)) eqn:E2;
    try reflexivity.
  apply Z.leb_le in E1. apply Z.ltb_lt in E2. lia.
Qed.

Lemma remove_step_hit pm k :
  0 <= k < Py.len (playlist pm) ->
  playlist (remove_step pm k) = Py.remove_nth (Z.to_nat k) (playlist pm)
  /\ original_order (remove_step pm k) = original_order pm
  /\ (k < current_index pm -> current_index (remove_step pm k)
                              = current_index pm - 1)
  /\ (k = current_index pm -> current_index (remove_step pm k) = -1)
  /\ (current_index pm < k -> current_index (remove_step pm k)
                              = current_index pm).
Proof.
  intros Hk. unfold remove_step.
  replace (0 <=? k) with true by (symmetry; apply Z.leb_le; lia).
  replace (k <? Py.len (playlist pm)) with true
    by (symmetry; apply Z.ltb_lt; lia).
  cbn [andb current_index set_playlist].
  destruct (k =? current_index pm) eqn:E1.
  - apply Z.eqb_eq in E1. cbn. repeat split; intros; lia.
  - apply Z.eqb_neq in E1.
    destruct (k <? current_index pm) eqn:E2.
    + apply Z.ltb_lt in E2. cbn. repeat split; intros; lia.
    + apply Z.ltb_ge in E2. cbn. repeat split; intros; lia.
Qed.

Lemma remove_step_cursor_ok pm k : cursor_ok pm -> cursor_ok (remove_step pm k).
Proof.
  intros Hok.
  destruct (Z_le_dec 0 k) as [H0|H0];
    [destruct (Z_lt_dec k (Py.len (playlist pm))) as [H1|H1]|];
    try (rewrite remove_step_skip by lia; exact Hok).
  destruct (remove_step_hit pm k (conj H0 H1)) as (Hpl & _ & Hlt & Heq & Hgt).
  unfold cursor_ok in *. rewrite Hpl, remove_nth_len by lia.
  destruct (Z.lt_trichotomy k (current_index pm)) as [H|[H|H]].
  - rewrite (Hlt H). lia.
  - rewrite (Heq H). now left.
  - rewrite (Hgt H). lia.
Qed.

Lemma remove_step_names pm k :
  ~ In EmptyString (playlist pm) ->
  ~ In EmptyString (playlist (remove_step pm k)).
Proof.
  intros Hn.
  destruct (Z_le_dec 0 k) as [H0|H0];
    [destruct (Z_lt_dec k (Py.len (playlist pm))) as [H1|H1]|];
    try (rewrite remove_step_skip by lia; exact Hn).
  destruct (remove_step_hit pm k (conj H0 H1)) as (Hpl & _).
  rewrite Hpl. intros H. now apply remove_nth_in in H.
Qed.

Lemma remove_loop_inv (P : PlaylistManager.t -> Prop) :
  (forall pm k, P pm -> P (remove_step pm k)) ->
  forall l pm, P pm -> P (fold_left remove_step l pm).
Proof.
  intros Hstep l. induction l as [|k l IH]; intros pm H; simpl; auto.
Qed.

Lemma remove_items_shape indices pm :
  let loop := fold_left remove_step (Py.sorted_reverse indices) pm in
  let pm' := remove_items indices pm in
  playlist pm' = playlist loop
  /\ original_order pm' = playlist pm'
  /\ shuffle_mode pm' = shuffle_mode pm
  /\ (playlist loop <> [] ->
      Py.len (playlist loop) <= current_index loop ->
      current_index pm' = Py.len (playlist loop) - 1)
  /\ (current_index loop < Py.len (playlist loop) ->
      current_index pm' = current_index loop)
  /\ (playlist loop = [] -> current_index pm' = current_index loop).
Proof.
  intros loop pm'. subst pm'. unfold remove_items. fold loop.
  assert (Hmode : shuffle_mode loop = shuffle_mode pm).
  { subst loop. apply (remove_loop_inv
                         (fun q => shuffle_mode q = shuffle_mode pm));
      [|reflexivity].
    intros q k Hq. unfold remove_step.
    destruct (_ && _)%bool; [|exact Hq].
    cbn [current_index set_playlist].
    destruct (k =? current_index q); [exact Hq|].
    destruct (k <? current_index q); exact Hq. }
  cbn [playlist current_index _update_original_order set_original_order].
  destruct (playlist loop) as [|x r] eqn:El.
  - cbn. rewrite El. repeat split; try assumption; congruence.
  - cbn [Py.is_empty negb andb].
    destruct (Py.len (x :: r) <=? current_index loop) eqn:E.
    + apply Z.leb_le in E.
      cbn [playlist original_order current_index shuffle_mode
           set_current_index _update_original_order set_original_order].
      rewrite El.
      repeat split; try assumption; try congruence; intros; try lia.
    + apply Z.leb_gt in E.
      cbn [playlist original_order current_index shuffle_mode
           set_current_index _update_original_order set_original_order].
      rewrite El.
      repeat split; try assumption; try congruence; intros; try lia.
Qed.

Lemma remove_items_cursor_ok indices pm :
  cursor_ok pm -> cursor_ok (remove_items indices pm).
Proof.
  intros Hok.
  pose proof (remove_loop_inv cursor_ok remove_step_cursor_ok
                (Py.sorted_reverse indices) pm Hok) as Hloop.
  destruct (remove_items_shape indices pm) as (Hpl & _ & _ & _ & Hin & Hnil).
  unfold cursor_ok in *. rewrite Hpl.
  destruct Hloop as [Hl|Hl].
  - destruct (playlist (fold_left remove_step (Py.sorted_reverse indices) pm))
      as [|x r] eqn:El.
    + left. now rewrite Hnil.
    + left. rewrite Hin; [assumption|]. rewrite Hl.
      unfold Py.len; simpl; lia.
  - right. rewrite Hin; lia.
Qed.

(** C6. [remove_items] runs the removal step over the indices from highest
    to lowest, whatever order they are given in. The step skips an index out
    of range; for an index [k] in range it deletes that entry and moves the
    cursor down by one when [k] is below it, sets it to [-1] when [k] is the
    cursor, and leaves it when [k] is above it. Afterwards [original_order]
    is the playlist, a cursor at or past the end of a non-empty playlist is
    set to the last index, and for a cursor that selected nothing or a
    listed track the cursor is [-1] when the playlist is left empty. *)
Theorem remove_items_reindexing (pm : PlaylistManager.t) :
  let n := Py.len (playlist pm) in
  let cur := current_index pm in
  (forall indices,
     StronglySorted Z.ge (Py.sorted_reverse indices)
     /\ Permutation (Py.sorted_reverse indices) indices
     /\ forall indices', Permutation indices indices' ->
                         remove_items indices pm = remove_items indices' pm)
  /\ (forall k, ~ 0 <= k < n -> remove_step pm k = pm)
  /\ (forall k, 0 <= k < n ->
        playlist (remove_step pm k) = Py.remove_nth (Z.to_nat k) (playlist pm)
        /\ (k < cur -> current_index (remove_step pm k) = cur - 1)
        /\ (k = cur -> current_index (remove_step pm k) = -1)
        /\ (cur < k -> current_index (remove_step pm k) = cur))
  /\ (forall indices,
        let loop := fold_left remove_step (Py.sorted_reverse indices) pm in
        let pm' := remove_items indices pm in
        playlist pm' = playlist loop
        /\ original_order pm' = playlist pm'
        /\ (playlist loop <> [] ->
            Py.len (playlist loop) <= current_index loop ->
            current_index pm' = Py.len (playlist loop) - 1)
        /\ (current_index loop < Py.len (playlist loop) ->
            current_index pm' = current_index loop)
        /\ (cursor_ok pm ->
            cursor_ok pm' /\ (playlist pm' = [] -> current_index pm' = -1)))
  /\ (cursor_ok pm ->
      forall k, 0 <= k < n ->
        let pm' := remove_items [k] pm in
        playlist pm' = Py.remove_nth (Z.to_nat k) (playlist pm)
        /\ (k < cur -> current_index pm' = cur - 1)
        /\ (k = cur -> current_index pm' = -1)
        /\ (cur < k -> current_index pm' = cur)).
Proof.
  intros n cur. repeat apply conj.
  - intros indices. split; [apply sorted_reverse_sorted|].
    split; [apply sorted_reverse_perm|].
    intros indices' Hp. unfold remove_items.
    now rewrite (sorted_reverse_order_free _ _ Hp).
  - intros k Hk. now apply remove_step_skip.
  - intros k Hk. destruct (remove_step_hit pm k Hk) as (H1 & _ & H2 & H3 & H4).
    repeat split; assumption.
  - intros indices loop pm'.
    destruct (remove_items_shape indices pm) as (H1 & H2 & _ & H3 & H4 & _).
    repeat split; try assumption.
    + now apply remove_items_cursor_ok.
    + intros He. pose proof (remove_items_cursor_ok indices pm H) as Hok.
      unfold cursor_ok in Hok. fold pm' in Hok. rewrite He in Hok.
      unfold Py.len in Hok; simpl in Hok. lia.
  - intros Hok k Hk pm'.
    destruct (remove_items_shape [k] pm) as (H1 & _ & _ & _ & H4 & H5).
    cbn [Py.sorted_reverse fold_right Py.insert_desc fold_left] in H1, H4, H5.
    pose proof (remove_step_cursor_ok pm k Hok) as Hok'.
    destruct (remove_step_hit pm k Hk) as (Hpl & _ & Hlt & Heq & Hgt).
    assert (Hcur : current_index pm' = current_index (remove_step pm k)).
    { destruct (playlist (remove_step pm k)) as [|x r] eqn:El.
      - now apply H5.
      - apply H4. unfold cursor_ok in Hok'. rewrite El in Hok'.
        unfold Py.len in *; simpl List.length in *; lia. }
    subst pm'. rewrite Hcur, H1.
    repeat split; assumption.
Qed.

End Removal.

(** ** Shuffle *)

Section Shuffle.

Import PlaylistManager Run Scenario.

Lemma current_track_none pm :
  current_index pm = -1 -> current_track pm = Some None.
Proof. intros H. unfold current_track. now rewrite H. Qed.

Lemma current_track_some pm :
  0 <= current_index pm < Py.len (playlist pm) ->
  ~ In EmptyString (playlist pm) ->
  exists tr, nth_error (playlist pm) (Z.to_nat (current_index pm)) = Some tr
             /\ current_track pm = Some (Some tr)
             /\ Py.truthy (Some tr) = true.
Proof.
  intros Hcur Hnames.
  destruct (get_in_range (playlist pm) (current_index pm) Hcur)
    as (tr & Hget & Hnth).
  exists tr. split; [assumption|]. split.
  - unfold current_track.
    replace (0 <=? current_index pm) with true
      by (symmetry; apply Z.leb_le; lia).
    now rewrite Hget.
  - simpl. apply negb_true_iff. apply String.eqb_neq.
    intros ->. apply Hnames. eapply nth_error_In; eassumption.
Qed.

Lemma apply_shuffle_cases random_shuffle pm :
  cursor_ok pm -> ~ In EmptyString (playlist pm) ->
  (playlist pm = [] /\ _apply_shuffle random_shuffle pm = Some pm)
  \/ (playlist pm <> [] /\ current_index pm = -1
      /\ _apply_shuffle random_shuffle pm
         = Some (set_playlist (random_shuffle (playlist pm)) pm))
  \/ (exists tr,
        0 <= current_index pm < Py.len (playlist pm)
        /\ nth_error (playlist pm) (Z.to_nat (current_index pm)) = Some tr
        /\ _apply_shuffle random_shuffle pm
           = Some (set_playlist
                     (tr :: random_shuffle
                              (Py.remove_nth (Z.to_nat (current_index pm))
                                             (playlist pm)))
                     (set_current_index 0 pm))).
Proof.
  intros Hok Hnames. unfold _apply_shuffle.
  destruct (playlist pm) as [|x r] eqn:El; [now left|].
  right. cbn [Py.is_empty].
  destruct Hok as [Hnone|Hsel].
  - left. split; [discriminate|]. split; [assumption|].
    rewrite (current_track_none pm Hnone). reflexivity.
  - right. rewrite El in Hsel.
    destruct (current_track_some pm) as (tr & Hnth & Hct & Htruthy);
      [now rewrite El | now rewrite El |].
    exists tr. rewrite El in Hnth. split; [assumption|].
    split; [assumption|].
    rewrite Hct, Htruthy. reflexivity.
Qed.

Lemma restore_cases pm :
  cursor_ok pm -> ~ In EmptyString (playlist pm) ->
  (original_order pm = [] /\ _restore_original_order pm = Some pm)
  \/ (original_order pm <> [] /\ current_index pm = -1
      /\ _restore_original_order pm
         = Some (set_playlist (original_order pm) pm))
  \/ (exists tr,
        original_order pm <> []
        /\ 0 <= current_index pm < Py.len (playlist pm)
        /\ nth_error (playlist pm) (Z.to_nat (current_index pm)) = Some tr
        /\ ((exists i, Py.index tr (original_order pm) = Some i
                       /\ _restore_original_order pm
                          = Some (set_current_index i
                                    (set_playlist (original_order pm) pm)))
            \/ (~ In tr (original_order pm)
                /\ _restore_original_order pm
                   = Some (set_playlist (original_order pm) pm)))).
Proof.
  intros Hok Hnames. unfold _restore_original_order.
  destruct (original_order pm) as [|x r] eqn:El; [now left|].
  right. cbn [Py.is_empty].
  destruct Hok as [Hnone|Hsel].
  - left. split; [discriminate|]. split; [assumption|].
    rewrite (current_track_none pm Hnone). reflexivity.
  - right.
    destruct (current_track_some pm Hsel Hnames) as (tr & Hnth & Hct & Htruthy).
    exists tr. split; [discriminate|]. split; [assumption|].
    split; [assumption|].
    rewrite Hct, Htruthy. cbn [andb playlist set_playlist].
    destruct (Py.contains tr (x :: r)) eqn:Ec.
    + left. apply contains_in in Ec.
      destruct (index_in tr (x :: r) Ec) as [i Hi].
      exists i. split; [assumption|]. now rewrite Hi.
    + right. split; [|reflexivity].
      intros Hin. apply contains_in in Hin. congruence.
Qed.

(** C5, as the code has it. For a store with shuffle off, whose snapshot is
    then its playlist (as it is after any operation), whose cursor selects
    nothing or a listed track, and whose tracks are pairwise distinct, two
    calls of [toggle_shuffle] give back the very same store: the same tracks
    in the same order and the same cursor. In between, a selected track sits
    at index [0] with the cursor on it, ahead of the shuffled rest. *)
Theorem shuffle_round_trip (shuffle1 shuffle2 : list string -> list string)
    (pm : PlaylistManager.t) :
  Inv pm -> shuffle_mode pm = false -> NoDup (playlist pm) ->
  exists pm1 pm2,
    toggle_shuffle shuffle1 pm = Some pm1
    /\ toggle_shuffle shuffle2 pm1 = Some pm2
    /\ playlist pm2 = playlist pm
    /\ current_index pm2 = current_index pm
    /\ pm2 = pm
    /\ (forall tr,
          0 <= current_index pm ->
          nth_error (playlist pm) (Z.to_nat (current_index pm)) = Some tr ->
          current_index pm1 = 0
          /\ playlist pm1
             = tr :: shuffle1 (Py.remove_nth (Z.to_nat (current_index pm))
                                             (playlist pm))).
Proof.
  intros [Hperm Hsnap Hok Hnames] Hoff Hnd.
  specialize (Hsnap Hoff).
  destruct pm as [pl oo cur rep sh].
  cbn in Hperm, Hsnap, Hok, Hnames, Hoff, Hnd. subst sh oo.
  set (pm := Build pl pl cur rep false) in *.
  assert (Hon : toggle_shuffle shuffle1 pm
                = _apply_shuffle shuffle1 (set_shuffle_mode true pm))
    by reflexivity.
  assert (Hback : forall q, shuffle_mode q = true ->
            toggle_shuffle shuffle2 q
            = _restore_original_order (set_shuffle_mode false q)).
  { intros q Hq. unfold toggle_shuffle.
    cbn [shuffle_mode set_shuffle_mode]. now rewrite Hq. }
  cbn [playlist current_index].
  destruct (apply_shuffle_cases shuffle1 (set_shuffle_mode true pm) Hok Hnames)
    as [(He & Hap) | [(Hne & Hnone & Hap) | (tr & Hsel & Hnth & Hap)]];
    cbn [playlist current_index set_shuffle_mode pm] in *.
  - exists (set_shuffle_mode true pm), pm. rewrite Hon, Hap.
    split; [reflexivity|]. rewrite Hback by reflexivity.
    split; [subst pl; reflexivity|].
    do 3 (split; [reflexivity|]).
    intros t0 _ Ht. subst pl. destruct (Z.to_nat cur); discriminate.
  - exists (set_playlist (shuffle1 pl) (set_shuffle_mode true pm)), pm.
    rewrite Hon, Hap. split; [reflexivity|]. rewrite Hback by reflexivity.
    split.
    { unfold _restore_original_order.
      cbn [original_order set_shuffle_mode set_playlist pm].
      rewrite (is_empty_false _ Hne).
      rewrite current_track_none by exact Hnone. reflexivity. }
    do 3 (split; [reflexivity|]).
    intros t0 Ht _. lia.
  - exists (set_playlist (tr :: shuffle1 (Py.remove_nth (Z.to_nat cur) pl))
              (set_current_index 0 (set_shuffle_mode true pm))), pm.
    rewrite Hon, Hap. split; [reflexivity|]. rewrite Hback by reflexivity.
    assert (Hne : pl <> []).
    { intros ->. destruct (Z.to_nat cur); discriminate. }
    assert (Htruthy : Py.truthy (Some tr) = true).
    { simpl. apply negb_true_iff, String.eqb_neq. intros ->.
      apply Hnames. eapply nth_error_In; eassumption. }
    assert (Hin : Py.contains tr pl = true).
    { apply contains_in. eapply nth_error_In; eassumption. }
    split.
    { unfold _restore_original_order.
      cbn [original_order playlist set_shuffle_mode set_playlist
           set_current_index pm].
      rewrite (is_empty_false _ Hne).
      unfold current_track.
      cbn [current_index playlist set_shuffle_mode set_playlist
           set_current_index Z.leb Z.compare Py.get Z.ltb Z.to_nat
           nth_error].
      rewrite Htruthy, Hin. cbn [andb].
      rewrite (index_nodup pl _ tr Hnd Hnth).
      rewrite Z2Nat.id by lia. reflexivity. }
    do 3 (split; [reflexivity|]).
    intros t0 _ Ht. split; [reflexivity|]. cbn. congruence.
Qed.

End Shuffle.

(** ** The invariant of the store *)

Section Invariant.

Import PlaylistManager Run Scenario.

Lemma add_files_fields files pm :
  playlist (add_files files pm)
    = playlist pm ++ filter AudioFormats.supported files
  /\ original_order (add_files files pm) = playlist (add_files files pm)
  /\ current_index (add_files files pm) = current_index pm.
Proof.
  unfold add_files. cbn. now rewrite add_loop_spec.
Qed.

Lemma add_folder_fields found pm :
  fst (add_folder found pm) = Py.len (filter AudioFormats.supported found)
  /\ playlist (snd (add_folder found pm))
     = playlist pm ++ filter AudioFormats.supported found
  /\ original_order (snd (add_folder found pm))
     = playlist (snd (add_folder found pm))
  /\ current_index (snd (add_folder found pm)) = current_index pm.
Proof.
  unfold add_folder. rewrite add_folder_loop_spec. cbn. repeat split.
Qed.

Lemma inv_of_snapshot pm :
  original_order pm = playlist pm -> cursor_ok pm ->
  ~ In EmptyString (playlist pm) -> Inv pm.
Proof.
  intros Hs Hc Hn. constructor; try assumption.
  - now rewrite Hs.
  - intros _. exact Hs.
Qed.

Lemma cursor_ok_grow pm pm' :
  current_index pm' = current_index pm ->
  Py.len (playlist pm) <= Py.len (playlist pm') ->
  cursor_ok pm -> cursor_ok pm'.
Proof. unfold cursor_ok. intros -> Hlen [H|H]; [now left | right; lia]. Qed.

Lemma inv_appended pm pm' extra :
  playlist pm' = playlist pm ++ filter AudioFormats.supported extra ->
  original_order pm' = playlist pm' ->
  current_index pm' = current_index pm ->
  Inv pm -> Inv pm'.
Proof.
  intros Hpl Hoo Hcur [_ _ Hc Hn].
  apply inv_of_snapshot; [assumption| |].
  - apply (cursor_ok_grow pm); [assumption| |assumption].
    rewrite Hpl. unfold Py.len. rewrite length_app. lia.
  - rewrite Hpl. intros H. apply in_app_or in H. destruct H as [H|H].
    + now apply Hn.
    + now apply filter_supported_named in H.
Qed.

Lemma inv_remove_items indices pm : Inv pm -> Inv (remove_items indices pm).
Proof.
  intros [_ _ Hc Hn].
  destruct (remove_items_shape indices pm) as (Hpl & Hoo & _).
  apply inv_of_snapshot; [assumption | now apply remove_items_cursor_ok |].
  rewrite Hpl.
  apply (remove_loop_inv (fun q => ~ In EmptyString (playlist q)));
    [apply remove_step_names | assumption].
Qed.

Lemma inv_set_current_index pm i :
  i = -1 \/ 0 <= i < Py.len (playlist pm) ->
  Inv pm -> Inv (set_current_index i pm).
Proof. intros Hi [Hp Hs Hc Hn]. constructor; assumption. Qed.

Lemma inv_next_cursor pm : Inv pm -> Inv (next_cursor pm).
Proof.
  intros HI. pose proof (inv_cursor pm HI) as Hc. unfold next_cursor.
  destruct (playlist pm) as [|x r] eqn:El; [exact HI|]. cbn [Py.is_empty].
  apply inv_set_current_index; [|exact HI].
  unfold get_next_index. rewrite El. cbn [Py.is_empty].
  destruct (repeat_mode pm =? 1); [now rewrite <- El|].
  right. apply Z.mod_pos_bound. unfold Py.len; simpl; lia.
Qed.

Lemma inv_prev_cursor pm : Inv pm -> Inv (prev_cursor pm).
Proof.
  intros HI. pose proof (inv_cursor pm HI) as Hc. unfold prev_cursor.
  destruct (playlist pm) as [|x r] eqn:El; [exact HI|]. cbn [Py.is_empty].
  apply inv_set_current_index; [|exact HI].
  unfold get_prev_index. rewrite El. cbn [Py.is_empty].
  destruct (repeat_mode pm =? 1); [now rewrite <- El|].
  right. apply Z.mod_pos_bound. unfold Py.len; simpl; lia.
Qed.

Lemma inv_apply_shuffle random_shuffle pm :
  permutes random_shuffle -> Inv pm -> shuffle_mode pm = false ->
  exists pm', toggle_shuffle random_shuffle pm = Some pm'
              /\ Inv pm' /\ original_order pm' = playlist pm
              /\ shuffle_mode pm' = true.
Proof.
  intros Hsh [Hp Hs Hc Hn] Hoff. specialize (Hs Hoff).
  unfold toggle_shuffle. cbn [shuffle_mode set_shuffle_mode]. rewrite Hoff.
  cbn [negb].
  destruct (apply_shuffle_cases random_shuffle (set_shuffle_mode true pm)
              Hc Hn)
    as [(He & ->) | [(Hne & Hnone & ->) | (tr & Hsel & Hnth & ->)]];
    cbn [playlist current_index set_shuffle_mode] in *;
    eexists; (split; [reflexivity|]); (split; [|split; [exact Hs|reflexivity]]).
  - constructor; cbn; try assumption. discriminate.
  - constructor; cbn.
    + now rewrite Hp, <- (Hsh (playlist pm)).
    + discriminate.
    + now left.
    + intros H. apply Hn. eapply Permutation_in; [symmetry; apply Hsh|exact H].
  - assert (Hperm : Permutation
              (tr :: random_shuffle
                       (Py.remove_nth (Z.to_nat (current_index pm))
                                      (playlist pm)))
              (playlist pm)).
    { etransitivity; [|apply remove_nth_perm; exact Hnth].
      apply perm_skip. symmetry. apply Hsh. }
    constructor; cbn.
    + now rewrite Hperm.
    + discriminate.
    + right. cbn. lia.
    + intros H. apply Hn. eapply Permutation_in; [exact Hperm|exact H].
Qed.

Lemma inv_restore random_shuffle pm :
  Inv pm -> shuffle_mode pm = true ->
  exists pm', toggle_shuffle random_shuffle pm = Some pm'
              /\ Inv pm' /\ playlist pm' = original_order pm.
Proof.
  intros [Hp Hs Hc Hn] Hon.
  unfold toggle_shuffle. cbn [shuffle_mode set_shuffle_mode]. rewrite Hon.
  cbn [negb].
  destruct (restore_cases (set_shuffle_mode false pm) Hc Hn)
    as [(He & ->) | [(Hne & Hnone & ->)
                    | (tr & Hne & Hsel & Hnth & [(i & Hi & ->) | (Hni & ->)])]];
    cbn [playlist original_order current_index set_shuffle_mode] in *;
    eexists; (split; [reflexivity|]).
  - rewrite He in Hp. apply Permutation_nil in Hp.
    split; [|cbn; now rewrite Hp, He].
    apply inv_of_snapshot; [cbn; now rewrite Hp, He | exact Hc | exact Hn].
  - split; [|reflexivity].
    apply inv_of_snapshot; cbn; [reflexivity | now left |].
    intros H. apply Hn. eapply Permutation_in; [exact Hp|exact H].
  - split; [|reflexivity].
    apply inv_of_snapshot; cbn; [reflexivity | |].
    + right. eapply index_range; eassumption.
    + intros H. apply Hn. eapply Permutation_in; [exact Hp|exact H].
  - exfalso. apply Hni. eapply Permutation_in; [symmetry; exact Hp|].
    eapply nth_error_In; eassumption.
Qed.

Lemma exec_inv pm o :
  Inv pm -> admissible pm o ->
  exists pm', exec o pm = Some pm' /\ Inv pm'.
Proof.
  intros HI Hadm. destruct o as [files|found|indices| |sh| | | |i]; cbn.
  - eexists; split; [reflexivity|].
    destruct (add_files_fields files pm) as (H1 & H2 & H3).
    eapply inv_appended; eassumption.
  - eexists; split; [reflexivity|].
    destruct (add_folder_fields found pm) as (_ & H1 & H2 & H3).
    eapply inv_appended; eassumption.
  - eexists; split; [reflexivity|]. now apply inv_remove_items.
  - eexists; split; [reflexivity|].
    apply inv_of_snapshot; cbn; [reflexivity | now left | tauto].
  - destruct (shuffle_mode pm) eqn:Em.
    + destruct (inv_restore sh pm HI Em) as (pm' & H1 & H2 & _). eauto.
    + destruct (inv_apply_shuffle sh pm Hadm HI Em) as (pm' & H1 & H2 & _).
      eauto.
  - eexists; split; [reflexivity|]. destruct HI. constructor; assumption.
  - eexists; split; [reflexivity|]. now apply inv_next_cursor.
  - eexists; split; [reflexivity|]. now apply inv_prev_cursor.
  - eexists; split; [reflexivity|]. apply inv_set_current_index; [|assumption].
    right. exact Hadm.
Qed.

Lemma inv_init : Inv init.
Proof.
  apply inv_of_snapshot; cbn; [reflexivity | now left | tauto].
Qed.

Lemma reachable_inv pm : reachable pm -> Inv pm.
Proof.
  induction 1 as [|pm o pm' Hr IH Hadm Hex]; [apply inv_init|].
  destruct (exec_inv pm o IH Hadm) as (q & Hq & HI). congruence.
Qed.

End Invariant.

(** ** What every reachable store satisfies *)

Section Reachable.

Import PlaylistManager Run Scenario.

Lemma toggle_keeps_original_order random_shuffle pm pm' :
  toggle_shuffle random_shuffle pm = Some pm' ->
  original_order pm' = original_order pm.
Proof.
  unfold toggle_shuffle, _apply_shuffle, _restore_original_order.
  cbn [shuffle_mode set_shuffle_mode playlist original_order].
  intros H.
  repeat match type of H with
         | context [if ?b then _ else _] => destruct b
         | context [match ?x with _ => _ end] => destruct x
         end;
    try discriminate; injection H as <-; reflexivity.
Qed.

Lemma next_track_cursor be now vp :
  VinylPlayer.playlist_manager (snd (VinylPlayer.next_track be now vp))
  = next_cursor (VinylPlayer.playlist_manager vp).
Proof.
  unfold VinylPlayer.next_track, next_cursor.
  destruct (Py.is_empty _); [reflexivity|].
  now rewrite load_and_play_keeps_manager.
Qed.

Lemma prev_track_cursor be now vp :
  VinylPlayer.playlist_manager (snd (VinylPlayer.prev_track be now vp))
  = prev_cursor (VinylPlayer.playlist_manager vp).
Proof.
  unfold VinylPlayer.prev_track, prev_cursor.
  destruct (Py.is_empty _); [reflexivity|].
  now rewrite load_and_play_keeps_manager.
Qed.

Lemma reachable_three_tracks : reachable three_tracks.
Proof.
  apply (reach_step
           (add_files ["A.mp3"; "B.mp3"; "C.mp3"]%string init) (Select 1)).
  - apply (reach_step init (AddFiles ["A.mp3"; "B.mp3"; "C.mp3"]%string));
      [apply reach_init | exact I | reflexivity].
  - vm_compute. split; [discriminate | reflexivity].
  - reflexivity.
Qed.

Lemma reachable_four_tracks : reachable four_tracks.
Proof.
  apply (reach_step
           (add_files ["A.mp3"; "B.mp3"; "notes.txt"; "C.ogg"; "D.wav"]%string
              init) (Select 2)).
  - apply (reach_step init
             (AddFiles ["A.mp3"; "B.mp3"; "notes.txt"; "C.ogg"; "D.wav"]%string));
      [apply reach_init | exact I | reflexivity].
  - vm_compute. split; [discriminate | reflexivity].
  - reflexivity.
Qed.

Lemma permutes_rev : permutes (@rev string).
Proof. intros l. apply Permutation_rev. Qed.

(** C9. In every store reached from the empty one by [add_files],
    [add_folder], [remove_items], [clear], [toggle_shuffle], a repeat toggle,
    a selection of a listed track and the cursor updates of [next_track] and
    [prev_track], [current_index] is [-1] or an index of the playlist; each of
    these operations succeeds there and leaves such a cursor again. *)
Theorem cursor_stays_in_range (pm : PlaylistManager.t) :
  reachable pm ->
  (current_index pm = -1 \/ 0 <= current_index pm < Py.len (playlist pm))
  /\ (forall o, admissible pm o ->
        exists pm', exec o pm = Some pm'
                    /\ (current_index pm' = -1
                        \/ 0 <= current_index pm' < Py.len (playlist pm')))
  /\ (forall be now vp,
        VinylPlayer.playlist_manager vp = pm ->
        let after_next :=
          VinylPlayer.playlist_manager (snd (VinylPlayer.next_track be now vp)) in
        let after_prev :=
          VinylPlayer.playlist_manager (snd (VinylPlayer.prev_track be now vp)) in
        after_next = next_cursor pm /\ after_prev = prev_cursor pm
        /\ (current_index after_next = -1
            \/ 0 <= current_index after_next < Py.len (playlist after_next))
        /\ (current_index after_prev = -1
            \/ 0 <= current_index after_prev < Py.len (playlist after_prev))).
Proof.
  intros Hr. pose proof (reachable_inv pm Hr) as HI.
  split; [exact (inv_cursor pm HI)|]. split.
  - intros o Hadm. destruct (exec_inv pm o HI Hadm) as (pm' & He & HI').
    exists pm'. split; [exact He | exact (inv_cursor pm' HI')].
  - intros be now vp <- after_next after_prev. subst after_next after_prev.
    rewrite next_track_cursor, prev_track_cursor.
    split; [reflexivity|]. split; [reflexivity|]. split.
    + exact (inv_cursor _ (inv_next_cursor _ HI)).
    + exact (inv_cursor _ (inv_prev_cursor _ HI)).
Qed.

Lemma cursor_stays_in_range_witness :
  (current_index four_tracks = -1
   \/ 0 <= current_index four_tracks < Py.len (playlist four_tracks))
  /\ exists pm', toggle_shuffle (@rev string) four_tracks = Some pm'
                 /\ (current_index pm' = -1
                     \/ 0 <= current_index pm' < Py.len (playlist pm')).
Proof.
  destruct (cursor_stays_in_range four_tracks reachable_four_tracks)
    as (Hcur & Hop & _).
  split; [exact Hcur|].
  exact (Hop (ToggleShuffle (@rev string)) permutes_rev).
Defined.

(** C8, as the code has it. In every reachable store [original_order] holds
    the same tracks as the playlist, as a multiset, and is the playlist itself
    while shuffle is off. Every [add_files], [add_folder], [remove_items] and
    [clear] takes the snapshot anew from the playlist as it then is, shuffled
    or not; no other operation changes it, so that after shuffle is switched
    on it holds the order the playlist had before, until the next of those
    four. *)
Theorem original_order_same_tracks :
  (forall pm, reachable pm ->
     Permutation (original_order pm) (playlist pm)
     /\ (shuffle_mode pm = false -> original_order pm = playlist pm)
     /\ (forall random_shuffle pm',
           shuffle_mode pm = false ->
           toggle_shuffle random_shuffle pm = Some pm' ->
           original_order pm' = playlist pm))
  /\ (forall pm o pm',
        exec o pm = Some pm' ->
        match o with
        | AddFiles _ | AddFolder _ | RemoveItems _ | Clear =>
            original_order pm' = playlist pm'
        | _ => original_order pm' = original_order pm
        end).
Proof.
  split.
  - intros pm Hr. pose proof (reachable_inv pm Hr) as [Hp Hs _ _].
    split; [exact Hp|]. split; [exact Hs|].
    intros sh pm' Hoff Ht.
    rewrite (toggle_keeps_original_order sh pm pm' Ht). now apply Hs.
  - intros pm o pm' He.
    destruct o as [files|found|indices| |sh| | | |i]; cbn in He;
      try (injection He as <-).
    + apply add_files_fields.
    + apply add_folder_fields.
    + apply remove_items_shape.
    + reflexivity.
    + now apply (toggle_keeps_original_order sh).
    + reflexivity.
    + unfold next_cursor. destruct (Py.is_empty _); reflexivity.
    + unfold prev_cursor. destruct (Py.is_empty _); reflexivity.
    + reflexivity.
Qed.

Lemma original_order_same_tracks_witness :
  Permutation (original_order four_tracks) (playlist four_tracks)
  /\ original_order four_tracks = playlist four_tracks.
Proof.
  destruct original_order_same_tracks as [Hreach _].
  destruct (Hreach four_tracks reachable_four_tracks) as (Hp & Hs & _).
  split; [exact Hp | apply Hs; reflexivity].
Defined.

(** C8, as the specification words it, fails: a track added while shuffle
    is on makes the snapshot the shuffled order. After [A, B, C] are added,
    shuffled to [C, B, A] and [D] is added, [original_order] is
    [C, B, A, D], not the pre-shuffle order [A, B, C, D]. *)
Lemma original_order_loses_pre_shuffle_order :
  permutes (@rev string)
  /\ (exists pm,
        run shuffled_add init = Some pm
        /\ shuffle_mode pm = true
        /\ playlist pm = ["C.mp3"; "B.mp3"; "A.mp3"; "D.mp3"]%string
        /\ original_order pm = ["C.mp3"; "B.mp3"; "A.mp3"; "D.mp3"]%string)
  /\ pre_shuffle_order shuffled_add
     = Some ["A.mp3"; "B.mp3"; "C.mp3"; "D.mp3"]%string
  /\ ~ keeps_pre_shuffle_order shuffled_add.
Proof.
  split; [exact permutes_rev|]. split.
  - eexists. split; [reflexivity|]. repeat split.
  - split; [reflexivity|].
    intros H. specialize (H _ eq_refl). discriminate H.
Qed.

(** The playlist of the specification's scenario, [A, B, C, D] with the
    cursor on [C], through two shuffle toggles. *)
Lemma shuffle_round_trip_witness :
  exists pm1,
    toggle_shuffle (@rev string) four_tracks = Some pm1
    /\ toggle_shuffle (@rev string) pm1 = Some four_tracks
    /\ current_index pm1 = 0
    /\ nth_error (playlist pm1) 0 = Some "C.ogg"%string.
Proof.
  destruct (shuffle_round_trip (@rev string) (@rev string) four_tracks)
    as (pm1 & pm2 & H1 & H2 & _ & _ & Heq & Hmid).
  - exact (reachable_inv four_tracks reachable_four_tracks).
  - reflexivity.
  - vm_compute. repeat constructor; simpl; intuition discriminate.
  - exists pm1. subst pm2.
    destruct (Hmid "C.ogg"%string) as [Hc Hp];
      [vm_compute; discriminate | reflexivity |].
    repeat split; try assumption. now rewrite Hp.
Defined.

(** The specification's scenario: [A, B, C] with the cursor on [B]; removing
    index [0] leaves [B, C] with the cursor at [0]. *)
Lemma remove_items_reindexing_witness :
  playlist (remove_items [0] three_tracks) = ["B.mp3"; "C.mp3"]%string
  /\ current_index (remove_items [0] three_tracks) = 0.
Proof.
  destruct (remove_items_reindexing three_tracks) as (_ & _ & _ & _ & Hone).
  destruct (Hone (inv_cursor _ (reachable_inv _ reachable_three_tracks)) 0)
    as (Hpl & Hlt & _).
  - vm_compute. split; [discriminate | reflexivity].
  - split; [exact Hpl | apply Hlt; reflexivity].
Defined.

End Reachable.

(** ** More on the playback clock *)

Section ClockRuns.

Import PlaybackState VinylPlayer Scenario.

Lemma max0_cases (x : Q) :
  ((0 < x)%Q /\ (Py.max0 x == x)%Q) \/ ((x <= 0)%Q /\ (Py.max0 x == 0)%Q).
Proof. unfold Py.max0. apply Q.max_spec. Qed.

(** X1. A track that loads starts the clock at zero: the player reports the
    track, is Playing with the probed length, and [d] seconds later
    [_elapsed_time] is [d]. *)
Theorem started_track_counts_from_zero (be : Backend) (now d : Q) (index : Z)
    (vp : VinylPlayer.t) :
  let pl := PlaylistManager.playlist (playlist_manager vp) in
  let path := nth (Z.to_nat index) pl EmptyString in
  0 <= index < Py.len pl ->
  load_ok be path = true ->
  (0 <= d)%Q ->
  let r := load_and_play be now index vp in
  fst r = NowPlaying path
  /\ phase (playback_state (snd r)) = Playing
  /\ track_length (playback_state (snd r)) = probe_length be path
  /\ (_elapsed_time (now + d) (snd r) == d)%Q.
Proof.
  intros pl path Hidx Hok Hd r. subst r. unfold load_and_play. fold pl.
  replace (index <? 0) with false by (symmetry; apply Z.ltb_ge; lia).
  replace (_ <=? index) with false by (symmetry; apply Z.leb_gt; lia).
  cbn [orb]. fold path. rewrite Hok.
  unfold _elapsed_time, phase. cbn.
  repeat split.
  destruct (max0_cases (now + d - now - 0)) as [[H1 H]|[H1 H]]; rewrite H; lra.
Qed.

Lemma started_track_counts_from_zero_witness :
  (_elapsed_time (100 + 3)
     (snd (load_and_play demo_backend 100%Q 0 demo_playing)) == 3)%Q.
Proof.
  apply (started_track_counts_from_zero demo_backend 100%Q 3%Q 0 demo_playing).
  - vm_compute. split; [discriminate | reflexivity].
  - reflexivity.
  - discriminate.
Defined.

(** X2. [_elapsed_time] is never negative and never runs backwards: read at
    a later time it is at least what it was, in every phase. *)
Theorem elapsed_nonneg_monotone (t1 t2 : Q) (vp : VinylPlayer.t) :
  (t1 <= t2)%Q ->
  (0 <= _elapsed_time t1 vp)%Q /\ (_elapsed_time t1 vp <= _elapsed_time t2 vp)%Q.
Proof.
  intros Ht. unfold _elapsed_time.
  destruct (is_playing (playback_state vp)); cbn [negb]; [|split; lra].
  destruct (is_paused (playback_state vp)).
  - destruct (max0_cases (last_pause (playback_state vp)
                          - start_time (playback_state vp)
                          - pause_accum (playback_state vp)))
      as [[H1 H]|[H1 H]]; rewrite H; split; lra.
  - destruct (max0_cases (t1 - start_time (playback_state vp)
                          - pause_accum (playback_state vp)))
      as [[H1 H]|[H1 H]];
      destruct (max0_cases (t2 - start_time (playback_state vp)
                            - pause_accum (playback_state vp)))
        as [[H2 H']|[H2 H']]; rewrite H, H'; split; lra.
Qed.

Lemma elapsed_nonneg_monotone_witness :
  (_elapsed_time 101 demo_playing <= _elapsed_time 102 demo_playing)%Q.
Proof.
  apply (elapsed_nonneg_monotone 101 102 demo_playing). discriminate.
Defined.

(** X3. Pausing a playing track freezes [_elapsed_time] at its value at the
    moment of the pause, whenever it is read; resuming makes it run on from
    that value, however long the pause lasted. *)
Theorem pause_freezes_resume_continues (be be' : Backend) (tp tr d : Q)
    (sel sel' : option Z) (vp : VinylPlayer.t) :
  phase (playback_state vp) = Playing ->
  PlaylistManager.playlist (playlist_manager vp) <> [] ->
  (start_time (playback_state vp) + pause_accum (playback_state vp) <= tp)%Q ->
  (0 <= d)%Q ->
  let paused := play_pause be tp sel vp in
  let resumed := play_pause be' tr sel' (snd paused) in
  fst paused = PausedNow
  /\ phase (playback_state (snd paused)) = Paused
  /\ (forall t, _elapsed_time t (snd paused) = _elapsed_time tp vp)
  /\ fst resumed = ResumedNow
  /\ phase (playback_state (snd resumed)) = Playing
  /\ (_elapsed_time (tr + d) (snd resumed) == _elapsed_time tp vp + d)%Q
  /\ playlist_manager (snd resumed) = playlist_manager vp.
Proof.
  intros Hph Hne Hraw Hd paused resumed. subst resumed paused.
  unfold play_pause, phase in *.
  destruct vp as [pm [playing is_p len st acc lp]]. cbn in *.
  rewrite (is_empty_false _ Hne).
  destruct playing; [|discriminate]. destruct is_p; [discriminate|].
  cbn. rewrite (is_empty_false _ Hne). cbn.
  unfold _elapsed_time. cbn.
  repeat split.
  destruct (max0_cases (tr + d - st - (acc + (tr - tp)))) as [[H1 H]|[H1 H]];
    destruct (max0_cases (tp - st - acc)) as [[H2 H']|[H2 H']];
    rewrite H, H'; lra.
Qed.

Lemma pause_freezes_resume_continues_witness :
  let paused := play_pause demo_backend 103%Q None demo_playing in
  let resumed := play_pause demo_backend 105%Q None (snd paused) in
  _elapsed_time 104 (snd paused) = _elapsed_time 103 demo_playing
  /\ (_elapsed_time (105 + 0) (snd resumed) == 3)%Q.
Proof.
  destruct (pause_freezes_resume_continues demo_backend demo_backend
              103 105 0 None None demo_playing)
    as (_ & _ & Hfrozen & _ & _ & Hrun & _);
    try reflexivity; try discriminate.
  split; [apply Hfrozen|]. cbv zeta. rewrite Hrun. reflexivity.
Defined.

(** X4. A tick acts only on a clock that is Playing while the backend is
    idle: in every other case it reports nothing and leaves the player as
    it is. Whatever it does, it leaves the tracks, their snapshot and the
    repeat and shuffle modes alone. *)
Theorem tick_acts_only_at_end_of_track (be : Backend) (busy : bool)
    (now now' : Q) (vp : VinylPlayer.t) :
  let r := _update_ui be busy now now' vp in
  (phase (playback_state vp) <> Playing \/ busy = true -> r = (None, vp))
  /\ PlaylistManager.playlist (playlist_manager (snd r))
     = PlaylistManager.playlist (playlist_manager vp)
  /\ PlaylistManager.original_order (playlist_manager (snd r))
     = PlaylistManager.original_order (playlist_manager vp)
  /\ PlaylistManager.repeat_mode (playlist_manager (snd r))
     = PlaylistManager.repeat_mode (playlist_manager vp)
  /\ PlaylistManager.shuffle_mode (playlist_manager (snd r))
     = PlaylistManager.shuffle_mode (playlist_manager vp).
Proof.
  intros r. subst r. split.
  - intros H. unfold _update_ui, phase in *.
    destruct (is_playing (playback_state vp)); [|reflexivity].
    destruct busy; [reflexivity|].
    destruct (is_paused (playback_state vp)); [reflexivity|].
    destruct H as [H|H]; [now elim H | discriminate].
  - unfold _update_ui.
    destruct (is_playing (playback_state vp)); [|repeat split].
    destruct (_ && _)%bool; [|repeat split].
    assert (H : forall q,
              PlaylistManager.playlist (playlist_manager (snd (_handle_track_end be now' q)))
              = PlaylistManager.playlist (playlist_manager q)
              /\ PlaylistManager.original_order (playlist_manager (snd (_handle_track_end be now' q)))
                 = PlaylistManager.original_order (playlist_manager q)
              /\ PlaylistManager.repeat_mode (playlist_manager (snd (_handle_track_end be now' q)))
                 = PlaylistManager.repeat_mode (playlist_manager q)
              /\ PlaylistManager.shuffle_mode (playlist_manager (snd (_handle_track_end be now' q)))
                 = PlaylistManager.shuffle_mode (playlist_manager q)).
    { intros q. unfold _handle_track_end, next_track.
      destruct (_ =? 1).
      - rewrite load_and_play_keeps_manager. repeat split.
      - destruct (Py.is_empty _); [repeat split|].
        rewrite load_and_play_keeps_manager. repeat split. }
    destruct (_ && _)%bool; cbn [snd]; apply H.
Qed.

Lemma tick_acts_only_at_end_of_track_witness :
  _update_ui demo_backend false 110%Q 110%Q demo_paused = (None, demo_paused).
Proof.
  destruct (tick_acts_only_at_end_of_track demo_backend false 110 110
              demo_paused) as [H _].
  apply H. left. discriminate.
Defined.

(** X5. A release of the progress scale does nothing on a clock that is
    Stopped or does not know the track length; otherwise it changes the
    anchors only: the store, the phase and the track length stay. *)
Theorem seek_touches_anchors_only (value t1 t2 : Q) (vp : VinylPlayer.t) :
  let vp' := _seek_end value t1 t2 vp in
  (phase (playback_state vp) = Stopped
   \/ (track_length (playback_state vp) <= 0)%Q -> vp' = vp)
  /\ playlist_manager vp' = playlist_manager vp
  /\ phase (playback_state vp') = phase (playback_state vp)
  /\ track_length (playback_state vp') = track_length (playback_state vp).
Proof.
  intros vp'. subst vp'. unfold _seek_end, phase.
  destruct vp as [pm [playing paused len st acc lp]].
  cbn [playback_state playlist_manager is_playing is_paused track_length
       set_ps].
  destruct playing; cbn [negb orb].
  - destruct (Qle_bool len 0) eqn:El; cbn [negb].
    + repeat split.
    + split; [|repeat split].
      intros [H|H].
      * destruct paused; discriminate.
      * apply Qle_bool_iff in H. congruence.
  - repeat split.
Qed.

Lemma seek_touches_anchors_only_witness :
  _seek_end 5000%Q 10%Q 10%Q VinylPlayer.init = VinylPlayer.init.
Proof.
  destruct (seek_touches_anchors_only 5000 10 10 VinylPlayer.init) as [H _].
  apply H. left. reflexivity.
Defined.

End ClockRuns.

(** ** Unreadable tracks and the tick *)

Section Unreadable.

Import PlaybackState VinylPlayer Scenario.

Lemma load_and_play_refused be now index vp :
  0 <= index < Py.len (PlaylistManager.playlist (playlist_manager vp)) ->
  load_ok be (nth (Z.to_nat index)
                (PlaylistManager.playlist (playlist_manager vp)) EmptyString)
    = false ->
  load_and_play be now index vp
  = (LoadError (nth (Z.to_nat index)
                  (PlaylistManager.playlist (playlist_manager vp)) EmptyString),
     vp).
Proof.
  intros Hidx Hbad. unfold load_and_play.
  replace (index <? 0) with false by (symmetry; apply Z.ltb_ge; lia).
  replace (_ <=? index) with false by (symmetry; apply Z.leb_gt; lia).
  cbn [orb]. now rewrite Hbad.
Qed.

Lemma idle_tick_is_track_end be now now' vp :
  phase (playback_state vp) = Playing ->
  _update_ui be false now now' vp
  = (Some (fst (_handle_track_end be now' vp)),
     snd (_handle_track_end be now' vp)).
Proof.
  intros Hph. unfold _update_ui, phase in *.
  destruct (is_playing (playback_state vp)); [|discriminate].
  destruct (is_paused (playback_state vp)); [discriminate|].
  cbn [negb andb]. destruct (_ && _)%bool; reflexivity.
Qed.

(** X6. With repeat-one on and an unreadable current track, a tick that
    finds the clock Playing and the backend idle reports the load error and
    leaves the player exactly as it was, so that the next such tick does the
    same again. *)
Theorem repeat_one_unreadable_track_repeats_error (be : Backend)
    (now now' : Q) (vp : VinylPlayer.t) :
  let pm := playlist_manager vp in
  let path := nth (Z.to_nat (PlaylistManager.current_index pm))
                  (PlaylistManager.playlist pm) EmptyString in
  phase (playback_state vp) = Playing ->
  PlaylistManager.repeat_mode pm = 1 ->
  0 <= PlaylistManager.current_index pm
    < Py.len (PlaylistManager.playlist pm) ->
  load_ok be path = false ->
  _update_ui be false now now' vp = (Some (LoadError path), vp).
Proof.
  intros pm path Hph Hrep Hcur Hbad.
  rewrite idle_tick_is_track_end by assumption.
  unfold _handle_track_end. fold pm. rewrite Hrep. cbn [Z.eqb Pos.eqb].
  now rewrite load_and_play_refused.
Qed.

Lemma repeat_one_unreadable_track_repeats_error_witness :
  let stuck := toggle_repeat (snd (next_track demo_backend 130%Q demo_playing)) in
  _update_ui demo_backend false 280%Q 281%Q stuck
  = (Some (LoadError "bad.mp3"), stuck).
Proof.
  intros stuck.
  apply (repeat_one_unreadable_track_repeats_error demo_backend 280 281 stuck).
  - reflexivity.
  - reflexivity.
  - vm_compute. split; [discriminate | reflexivity].
  - reflexivity.
Defined.

(** X7. With repeat off, a skip to an unreadable track while the clock is
    Playing reports the load error with the cursor on that track and the
    clock still Playing; the next tick that finds the backend idle then
    moves on by itself, to the track after the unreadable one. *)
Theorem unreadable_track_passed_by_next_tick (be : Backend)
    (t now now' : Q) (vp : VinylPlayer.t) :
  let pm := playlist_manager vp in
  let n := Py.len (PlaylistManager.playlist pm) in
  let i := PlaylistManager.get_next_index pm in
  let path := nth (Z.to_nat i) (PlaylistManager.playlist pm) EmptyString in
  phase (playback_state vp) = Playing ->
  PlaylistManager.repeat_mode pm <> 1 ->
  PlaylistManager.playlist pm <> [] ->
  load_ok be path = false ->
  let skipped := next_track be t vp in
  let ticked := _update_ui be false now now' (snd skipped) in
  fst skipped = LoadError path
  /\ PlaylistManager.current_index (playlist_manager (snd skipped)) = i
  /\ phase (playback_state (snd skipped)) = Playing
  /\ snd ticked = snd (next_track be now' (snd skipped))
  /\ PlaylistManager.current_index (playlist_manager (snd ticked))
     = (i + 1) mod n.
Proof.
  intros pm n i path Hph Hrep Hne Hbad skipped ticked.
  pose proof (len_pos _ Hne) as Hpos. fold n in Hpos.
  assert (Hi : 0 <= i < n).
  { subst i. rewrite get_next_index_off by assumption.
    apply Z.mod_pos_bound. exact Hpos. }
  set (vp1 := set_pm (PlaylistManager.set_current_index i pm) vp).
  assert (Hskip : skipped = (LoadError path, vp1)).
  { subst skipped. unfold next_track. fold pm.
    rewrite (is_empty_false _ Hne). fold i. fold vp1.
    now apply load_and_play_refused. }
  assert (Htick : ticked = (Some (fst (next_track be now' vp1)),
                            snd (next_track be now' vp1))).
  { subst ticked. rewrite Hskip. cbn [snd].
    rewrite idle_tick_is_track_end by exact Hph.
    unfold _handle_track_end.
    replace (PlaylistManager.repeat_mode (playlist_manager vp1) =? 1)
      with false by (symmetry; apply Z.eqb_neq; exact Hrep).
    reflexivity. }
  rewrite Htick, Hskip. cbn [fst snd].
  repeat split; try assumption.
  rewrite next_track_cursor. unfold Run.next_cursor.
  cbn [playlist_manager vp1 set_pm PlaylistManager.playlist
       PlaylistManager.set_current_index].
  rewrite (is_empty_false _ Hne).
  cbn [PlaylistManager.current_index PlaylistManager.set_current_index].
  rewrite get_next_index_off by assumption. reflexivity.
Qed.

Lemma unreadable_track_passed_by_next_tick_witness :
  PlaylistManager.current_index
    (playlist_manager
       (snd (_update_ui demo_backend false 131%Q 131%Q
               (snd (next_track demo_backend 130%Q demo_playing)))))
  = 0.
Proof.
  destruct (unreadable_track_passed_by_next_tick demo_backend 130 131 131
              demo_playing) as (_ & _ & _ & _ & H);
    [reflexivity | discriminate | discriminate | reflexivity | exact H].
Defined.

End Unreadable.

(** ** More on the store *)

Section StoreFacts.

Import PlaylistManager Run Scenario.

Lemma add_files_eq files pm :
  add_files files pm
  = {| playlist := playlist pm ++ filter AudioFormats.supported files;
       original_order := playlist pm ++ filter AudioFormats.supported files;
       current_index := current_index pm;
       repeat_mode := repeat_mode pm;
       shuffle_mode := shuffle_mode pm |}.
Proof.
  unfold add_files, _update_original_order, set_original_order, set_playlist.
  cbn. now rewrite add_loop_spec.
Qed.

(** X8. [add_files] appends the offered files that have a supported
    extension, in the order offered, after the tracks already listed, and
    leaves cursor and modes alone; adding two batches one after the other is
    adding their concatenation; [add_folder] does the same and returns the
    number of tracks it appended. *)
Theorem add_appends_supported_files (files more found : list string)
    (pm : PlaylistManager.t) :
  playlist (add_files files pm)
    = playlist pm ++ filter AudioFormats.supported files
  /\ current_index (add_files files pm) = current_index pm
  /\ repeat_mode (add_files files pm) = repeat_mode pm
  /\ shuffle_mode (add_files files pm) = shuffle_mode pm
  /\ add_files more (add_files files pm) = add_files (files ++ more) pm
  /\ snd (add_folder found pm) = add_files found pm
  /\ fst (add_folder found pm)
     = Py.len (playlist (add_files found pm)) - Py.len (playlist pm).
Proof.
  rewrite !add_files_eq. cbn [playlist current_index repeat_mode shuffle_mode].
  repeat split.
  - now rewrite filter_app, app_assoc.
  - unfold add_folder. rewrite add_folder_loop_spec. cbn [snd].
    rewrite <- add_loop_spec. reflexivity.
  - destruct (add_folder_fields found pm) as (-> & _).
    unfold Py.len. rewrite length_app. lia.
Qed.

Lemma Forall_remove_nth {A : Type} (P : A -> Prop) (n : nat) (l : list A) :
  Forall P l -> Forall P (Py.remove_nth n l).
Proof.
  intros H. apply Forall_forall. intros x Hx.
  apply remove_nth_in in Hx. revert x Hx. now apply Forall_forall.
Qed.

Lemma remove_step_tracks (P : string -> Prop) pm k :
  Forall P (playlist pm) -> Forall P (playlist (remove_step pm k)).
Proof.
  intros H.
  destruct (Z_le_dec 0 k) as [H0|H0];
    [destruct (Z_lt_dec k (Py.len (playlist pm))) as [H1|H1]|];
    try (rewrite remove_step_skip by lia; exact H).
  destruct (remove_step_hit pm k (conj H0 H1)) as (-> & _).
  now apply Forall_remove_nth.
Qed.

Lemma exec_tracks (P : string -> Prop) pm o pm' :
  (forall f, AudioFormats.supported f = true -> P f) ->
  Inv pm -> admissible pm o -> exec o pm = Some pm' ->
  Forall P (playlist pm) -> Forall P (playlist pm').
Proof.
  intros Hsup HI Hadm He H.
  destruct o as [files|found|indices| |sh| | | |i]; cbn [exec] in He;
    try (injection He as <-).
  - rewrite add_files_eq. cbn. apply Forall_app. split; [assumption|].
    apply Forall_forall. intros f Hf. apply filter_In in Hf. now apply Hsup.
  - change (Forall P (playlist (snd (add_folder found pm)))).
    destruct (add_folder_fields found pm) as (_ & -> & _).
    apply Forall_app. split; [assumption|].
    apply Forall_forall. intros f Hf. apply filter_In in Hf. now apply Hsup.
  - destruct (remove_items_shape indices pm) as (-> & _).
    apply (remove_loop_inv (fun q => Forall P (playlist q)));
      [intros; now apply remove_step_tracks | assumption].
  - constructor.
  - destruct (shuffle_mode pm) eqn:Em.
    + destruct (inv_restore sh pm HI Em) as (q & Hq & _ & Hpl).
      rewrite He in Hq. injection Hq as <-. rewrite Hpl.
      eapply Permutation_Forall; [|exact H].
      symmetry. apply (inv_same_tracks pm HI).
    + destruct (inv_apply_shuffle sh pm Hadm HI Em) as (q & Hq & HIq & Hoo & _).
      rewrite He in Hq. injection Hq as <-.
      eapply Permutation_Forall; [|exact H].
      rewrite <- Hoo. apply (inv_same_tracks pm' HIq).
  - exact H.
  - unfold next_cursor. destruct (Py.is_empty _); exact H.
  - unfold prev_cursor. destruct (Py.is_empty _); exact H.
  - exact H.
Qed.

(** X9. Whatever is done to the store, every track it lists, and every
    track of its snapshot, is a file that [add_files] or [add_folder]
    accepted: it has a supported extension. *)
Theorem listed_tracks_are_supported (pm : PlaylistManager.t) :
  reachable pm ->
  Forall (fun f => AudioFormats.supported f = true) (playlist pm)
  /\ Forall (fun f => AudioFormats.supported f = true) (original_order pm).
Proof.
  intros Hr.
  assert (H : Forall (fun f => AudioFormats.supported f = true) (playlist pm)).
  { induction Hr as [|pm o pm' Hr IH Hadm He]; [constructor|].
    eapply exec_tracks; try eassumption; [auto | now apply reachable_inv]. }
  split; [exact H|].
  eapply Permutation_Forall; [|exact H].
  symmetry. apply (inv_same_tracks pm (reachable_inv pm Hr)).
Qed.

Lemma listed_tracks_are_supported_witness :
  Forall (fun f => AudioFormats.supported f = true) (playlist four_tracks).
Proof.
  exact (proj1 (listed_tracks_are_supported four_tracks reachable_four_tracks)).
Defined.

(** X10. For a cursor on a listed track, [next_track] followed by
    [prev_track] puts the cursor back where it was, and so does [prev_track]
    followed by [next_track], with repeat on or off. *)
Theorem next_and_prev_undo_each_other (pm : PlaylistManager.t) :
  0 <= current_index pm < Py.len (playlist pm) ->
  prev_cursor (next_cursor pm) = pm /\ next_cursor (prev_cursor pm) = pm.
Proof.
  intros Hcur.
  assert (Hne : playlist pm <> []).
  { intros He. rewrite He in Hcur. unfold Py.len in Hcur. simpl in Hcur. lia. }
  destruct (Z.eq_dec (repeat_mode pm) 1) as [Hone|Hoff].
  - assert (Hn : next_cursor pm = pm).
    { unfold next_cursor, get_next_index.
      rewrite (is_empty_false _ Hne), Hone. now destruct pm. }
    assert (Hp : prev_cursor pm = pm).
    { unfold prev_cursor, get_prev_index.
      rewrite (is_empty_false _ Hne), Hone. now destruct pm. }
    now rewrite Hn, Hp, Hn.
  - rewrite next_cursor_off, prev_cursor_off by assumption.
    rewrite prev_cursor_off, next_cursor_off by assumption.
    cbn [playlist current_index set_current_index].
    rewrite Zminus_mod_idemp_l, Z.add_mod_idemp_l by lia.
    replace (current_index pm + 1 - 1) with (current_index pm) by lia.
    replace (current_index pm - 1 + 1) with (current_index pm) by lia.
    rewrite Z.mod_small by lia. now destruct pm.
Qed.

Lemma next_and_prev_undo_each_other_witness :
  prev_cursor (next_cursor four_tracks) = four_tracks.
Proof.
  apply (next_and_prev_undo_each_other four_tracks).
  vm_compute. split; [discriminate | reflexivity].
Defined.

Lemma index_nth (x : string) (l : list string) (i : Z) :
  Py.index x l = Some i -> 0 <= i /\ nth_error l (Z.to_nat i) = Some x.
Proof.
  revert i. induction l as [|y l IH]; intros i H; simpl in H; [discriminate|].
  destruct (String.eqb x y) eqn:E.
  - injection H as <-. apply String.eqb_eq in E. subst. split; [lia|reflexivity].
  - destruct (Py.index x l) as [j|]; [|discriminate].
    injection H as <-. destruct (IH j eq_refl) as [Hj Hn].
    split; [lia|].
    replace (Z.to_nat (j + 1)) with (S (Z.to_nat j)) by lia. exact Hn.
Qed.

Lemma get_nonneg {A : Type} (l : list A) (i : Z) :
  0 <= i -> Py.get l i = nth_error l (Z.to_nat i).
Proof.
  intros Hi. unfold Py.get.
  now replace (i <? 0) with false by (symmetry; apply Z.ltb_ge; lia).
Qed.

(** X11. In a store that satisfies its invariant, [toggle_shuffle] with a
    shuffle that permutes never fails; it flips the shuffle mode, keeps the
    same tracks up to their order, and keeps the current track current: no
    selection stays no selection, and a cursor on a track ends on that same
    track. *)
Theorem toggle_shuffle_keeps_current_track
    (random_shuffle : list string -> list string) (pm : PlaylistManager.t) :
  Inv pm -> permutes random_shuffle ->
  exists pm',
    toggle_shuffle random_shuffle pm = Some pm'
    /\ shuffle_mode pm' = negb (shuffle_mode pm)
    /\ Permutation (playlist pm') (playlist pm)
    /\ (current_index pm = -1 -> current_index pm' = -1)
    /\ (0 <= current_index pm ->
        0 <= current_index pm'
        /\ Py.get (playlist pm') (current_index pm')
           = Py.get (playlist pm) (current_index pm)).
Proof.
  intros [Hp Hs Hc Hn] Hsh.
  assert (Hempty : playlist pm = [] -> 0 <= current_index pm -> False).
  { intros He H0. destruct Hc as [Hc|Hc]; [lia|].
    rewrite He in Hc. unfold Py.len in Hc. simpl in Hc. lia. }
  unfold toggle_shuffle. cbn [shuffle_mode set_shuffle_mode].
  destruct (shuffle_mode pm) eqn:Em; cbn [negb].
  - destruct (restore_cases (set_shuffle_mode false pm) Hc Hn)
      as [(He & ->) | [(Hne & Hnone & ->)
                      | (tr & Hne & Hsel & Hnth & [(i & Hi & ->) | (Hni & ->)])]];
      cbn [playlist original_order current_index set_shuffle_mode] in *;
      eexists; (split; [reflexivity|]);
      cbn [playlist original_order current_index shuffle_mode
           set_shuffle_mode set_playlist set_current_index].
    + split; [reflexivity|]. split; [reflexivity|]. split; [tauto|].
      intros H0. exfalso. apply Hempty; [|exact H0].
      rewrite He in Hp. now apply Permutation_nil in Hp.
    + split; [reflexivity|]. split; [exact Hp|].
      split; [intros _; exact Hnone|]. intros H0. lia.
    + destruct (index_nth _ _ _ Hi) as [Hi0 Hinth].
      split; [reflexivity|]. split; [exact Hp|].
      split; [intros H0; lia|]. intros _. split; [exact Hi0|].
      rewrite !get_nonneg by lia. congruence.
    + exfalso. apply Hni. eapply Permutation_in; [symmetry; exact Hp|].
      eapply nth_error_In; eassumption.
  - destruct (apply_shuffle_cases random_shuffle (set_shuffle_mode true pm)
                Hc Hn)
      as [(He & ->) | [(Hne & Hnone & ->) | (tr & Hsel & Hnth & ->)]];
      cbn [playlist current_index set_shuffle_mode] in *;
      eexists; (split; [reflexivity|]);
      cbn [playlist original_order current_index shuffle_mode
           set_shuffle_mode set_playlist set_current_index].
    + split; [reflexivity|]. split; [reflexivity|]. split; [tauto|].
      intros H0. exfalso. now apply Hempty.
    + split; [reflexivity|]. split; [symmetry; apply Hsh|].
      split; [intros _; exact Hnone|]. intros H0. lia.
    + split; [reflexivity|]. split.
      { etransitivity; [|apply remove_nth_perm; exact Hnth].
        apply perm_skip. symmetry. apply Hsh. }
      split; [intros H0; lia|]. intros _. split; [lia|].
      rewrite !get_nonneg by lia. rewrite Hnth. reflexivity.
Qed.

Lemma toggle_shuffle_keeps_current_track_witness :
  exists pm',
    toggle_shuffle (@rev string) four_tracks = Some pm'
    /\ Py.get (playlist pm') (current_index pm') = Some "C.ogg"%string.
Proof.
  destruct (toggle_shuffle_keeps_current_track (@rev string) four_tracks)
    as (pm' & Ht & _ & _ & _ & Hcur).
  - exact (reachable_inv four_tracks reachable_four_tracks).
  - exact permutes_rev.
  - exists pm'. split; [exact Ht|].
    destruct Hcur as [_ Hget]; [vm_compute; discriminate|].
    rewrite Hget. reflexivity.
Defined.

End StoreFacts.

(** ** Removal of a selection *)

Section SelectionFacts.

Import PlaylistManager Run Scenario Selection.

Lemma listed_in (i : Z) (l : list Z) : existsb (Z.eqb i) l = true <-> In i l.
Proof.
  rewrite existsb_exists. split.
  - intros (k & Hk & E). apply Z.eqb_eq in E. now subst.
  - intros H. exists i. split; [assumption | apply Z.eqb_refl].
Qed.

Lemma unlisted (i : Z) (l : list Z) : ~ In i l -> existsb (Z.eqb i) l = false.
Proof.
  intros H. destruct (existsb (Z.eqb i) l) eqn:E; [|reflexivity].
  apply listed_in in E. contradiction.
Qed.

Lemma listed_perm (i : Z) (l l' : list Z) :
  Permutation l l' -> existsb (Z.eqb i) l = existsb (Z.eqb i) l'.
Proof.
  intros Hp. destruct (existsb (Z.eqb i) l') eqn:E.
  - apply listed_in. apply listed_in in E.
    eapply Permutation_in; [symmetry; exact Hp | exact E].
  - apply unlisted. intros H. apply (Permutation_in _ Hp) in H.
    apply listed_in in H. congruence.
Qed.

Lemma keep_unlisted_perm (i : Z) (l l' : list Z) (tracks : list string) :
  Permutation l l' -> keep_unlisted i l tracks = keep_unlisted i l' tracks.
Proof.
  intros Hp. revert i. induction tracks as [|x t IH]; intros i; simpl;
    [reflexivity|].
  now rewrite (listed_perm i l l' Hp), !IH.
Qed.

Lemma keep_unlisted_below (i : Z) (indices : list Z) (tracks : list string) :
  (forall k, In k indices -> k < i) -> keep_unlisted i indices tracks = tracks.
Proof.
  revert i. induction tracks as [|x t IH]; intros i H; simpl; [reflexivity|].
  rewrite unlisted by (intros Hin; apply H in Hin; lia).
  rewrite IH; [reflexivity|]. intros k Hk. apply H in Hk. lia.
Qed.

Lemma keep_unlisted_remove (i : Z) (n : nat) (indices : list Z)
    (tracks : list string) :
  (n < List.length tracks)%nat ->
  (forall k, In k indices -> k < i + Z.of_nat n) ->
  keep_unlisted i indices (Py.remove_nth n tracks)
  = keep_unlisted i ((i + Z.of_nat n) :: indices) tracks.
Proof.
  revert i n. induction tracks as [|x t IH]; intros i n Hn Hlt;
    [simpl in Hn; lia|].
  destruct n as [|m].
  - cbn [Py.remove_nth keep_unlisted existsb].
    replace (i + Z.of_nat 0) with i in * by lia.
    rewrite Z.eqb_refl. cbn [orb].
    rewrite !keep_unlisted_below; [reflexivity| |assumption].
    intros k [<-|Hk]; [lia|]. apply Hlt in Hk. lia.
  - cbn [Py.remove_nth keep_unlisted existsb].
    replace (i =? i + Z.of_nat (S m)) with false
      by (symmetry; apply Z.eqb_neq; lia).
    cbn [orb]. simpl in Hn.
    rewrite (IH (i + 1) m) by (try lia; intros k Hk; apply Hlt in Hk; lia).
    replace (i + 1 + Z.of_nat m) with (i + Z.of_nat (S m)) by lia.
    reflexivity.
Qed.

Lemma filter_all {A : Type} (f : A -> bool) (l : list A) :
  (forall x, In x l -> f x = true) -> filter f l = l.
Proof.
  induction l as [|x l IH]; intros H; simpl; [reflexivity|].
  rewrite (H x (or_introl eq_refl)), IH; [reflexivity|].
  intros y Hy. apply H. now right.
Qed.

Lemma filter_none {A : Type} (f : A -> bool) (l : list A) :
  (forall x, In x l -> f x = false) -> filter f l = [].
Proof.
  induction l as [|x l IH]; intros H; simpl; [reflexivity|].
  rewrite (H x (or_introl eq_refl)). apply IH.
  intros y Hy. apply H. now right.
Qed.

Lemma cursor_after_perm (cur : Z) (l l' : list Z) :
  Permutation l l' -> cursor_after cur l = cursor_after cur l'.
Proof.
  intros Hp. unfold cursor_after. rewrite (listed_perm cur l l' Hp).
  destruct (existsb _ l'); [reflexivity|].
  unfold Py.len.
  assert (Hf : Permutation (filter (fun k => k <? cur) l)
                           (filter (fun k => k <? cur) l')).
  { clear -Hp. induction Hp; simpl.
    - constructor.
    - destruct (x <? cur); [now constructor | assumption].
    - destruct (x <? cur), (y <? cur); try reflexivity. apply perm_swap.
    - etransitivity; eassumption. }
  now rewrite (Permutation_length Hf).
Qed.

Lemma cursor_after_step (cur k : Z) (rest : list Z) :
  (forall j, In j rest -> 0 <= j < k) ->
  cursor_after cur (k :: rest)
  = cursor_after (if k =? cur then -1
                  else if k <? cur then cur - 1 else cur) rest.
Proof.
  intros Hrest. unfold cursor_after. cbn [existsb filter].
  destruct (k =? cur) eqn:Eeq.
  - apply Z.eqb_eq in Eeq. subst k. rewrite Z.eqb_refl. cbn [orb].
    rewrite unlisted by (intros H; apply Hrest in H; lia).
    rewrite filter_none; [reflexivity|].
    intros j Hj. apply Hrest in Hj. apply Z.ltb_ge. lia.
  - apply Z.eqb_neq in Eeq.
    replace (cur =? k) with false by (symmetry; apply Z.eqb_neq; lia).
    cbn [orb].
    destruct (k <? cur) eqn:Elt.
    + apply Z.ltb_lt in Elt.
      rewrite !unlisted by (intros H; apply Hrest in H; lia).
      rewrite !filter_all
        by (intros j Hj; apply Hrest in Hj; apply Z.ltb_lt; lia).
      unfold Py.len. simpl List.length. lia.
    + reflexivity.
Qed.

Lemma remove_nth_nth_below {A : Type} (n m : nat) (l : list A) :
  (m < n)%nat -> nth_error (Py.remove_nth n l) m = nth_error l m.
Proof.
  revert n m. induction l as [|x l IH]; intros [|n] [|m] H;
    try reflexivity; try lia.
  exact (IH n m ltac:(lia)).
Qed.

Lemma remove_nth_nth_above {A : Type} (n m : nat) (l : list A) :
  (n <= m)%nat -> nth_error (Py.remove_nth n l) m = nth_error l (S m).
Proof.
  revert n m. induction l as [|x l IH]; intros [|n] [|m] H;
    try reflexivity; try lia.
  exact (IH n m ltac:(lia)).
Qed.

Lemma remove_loop_by_position (ks : list Z) pm :
  StronglySorted Z.gt ks ->
  Forall (fun k => 0 <= k < Py.len (playlist pm)) ks ->
  let loop := fold_left remove_step ks pm in
  playlist loop = keep_unlisted 0 ks (playlist pm)
  /\ current_index loop = cursor_after (current_index pm) ks
  /\ Py.len (playlist loop) = Py.len (playlist pm) - Py.len ks
  /\ (0 <= current_index pm < Py.len (playlist pm) ->
      ~ In (current_index pm) ks ->
      0 <= current_index loop
      /\ Py.get (playlist loop) (current_index loop)
         = Py.get (playlist pm) (current_index pm)).
Proof.
  intros Hs. revert pm. induction Hs as [|k rest Hs IH Hall]; intros pm Hr.
  - cbn [fold_left]. unfold cursor_after. cbn [existsb filter keep_unlisted].
    split; [|split; [|split]].
    + symmetry. apply keep_unlisted_below. intros k [].
    + unfold Py.len. simpl. lia.
    + unfold Py.len. simpl. lia.
    + intros Hc _. split; [lia | reflexivity].
  - inversion Hr as [|? ? Hk Hrest]; subst.
    assert (Hbelow : forall j, In j rest -> 0 <= j < k).
    { intros j Hj. rewrite Forall_forall in Hall, Hrest.
      specialize (Hall j Hj). specialize (Hrest j Hj). cbv beta in Hrest.
      lia. }
    destruct (remove_step_hit pm k Hk) as (Hpl & _ & Hlt & Heq & Hgt).
    cbn [fold_left].
    destruct (IH (remove_step pm k)) as (H1 & H2 & H3 & H4).
    { apply Forall_forall. intros j Hj. apply Hbelow in Hj.
      rewrite Hpl, remove_nth_len by lia. lia. }
    split; [|split; [|split]].
    + rewrite H1, Hpl, keep_unlisted_remove.
      * now rewrite Z.add_0_l, Z2Nat.id by lia.
      * unfold Py.len in Hk. lia.
      * intros j Hj. apply Hbelow in Hj. lia.
    + rewrite H2, (cursor_after_step _ k rest Hbelow). f_equal.
      destruct (k =? current_index pm) eqn:E1.
      * apply Z.eqb_eq in E1. now apply Heq.
      * apply Z.eqb_neq in E1. destruct (k <? current_index pm) eqn:E2.
        -- apply Z.ltb_lt in E2. now apply Hlt.
        -- apply Z.ltb_ge in E2. apply Hgt. lia.
    + rewrite H3, Hpl, remove_nth_len by lia.
      unfold Py.len. simpl List.length. lia.
    + intros Hc Hnot.
      assert (Hkc : k <> current_index pm) by (intros ->; apply Hnot; now left).
      assert (Hnr : ~ In (current_index pm) rest)
        by (intros H; apply Hnot; now right).
      destruct (Z_lt_dec k (current_index pm)) as [Hlow|Hhigh].
      * specialize (Hlt Hlow).
        destruct H4 as [H40 H4].
        { rewrite Hlt, Hpl, remove_nth_len by lia. lia. }
        { rewrite Hlt. intros H. apply Hbelow in H. lia. }
        split; [exact H40|]. rewrite H4, Hlt, Hpl.
        rewrite !get_nonneg by lia.
        rewrite remove_nth_nth_above by lia. f_equal. lia.
      * assert (Hup : current_index pm < k) by lia.
        specialize (Hgt Hup).
        destruct H4 as [H40 H4].
        { rewrite Hgt, Hpl, remove_nth_len by lia. lia. }
        { now rewrite Hgt. }
        split; [exact H40|]. rewrite H4, Hgt, Hpl.
        rewrite !get_nonneg by lia.
        apply remove_nth_nth_below. lia.
Qed.

Lemma sorted_reverse_strict (indices : list Z) :
  NoDup indices -> StronglySorted Z.gt (Py.sorted_reverse indices).
Proof.
  intros Hnd.
  assert (Hnd' : NoDup (Py.sorted_reverse indices)).
  { eapply Permutation_NoDup; [symmetry; apply sorted_reverse_perm|exact Hnd]. }
  pose proof (sorted_reverse_sorted indices) as Hs.
  induction Hs as [|k rest Hs IH Hall]; [constructor|].
  inversion Hnd' as [|? ? Hnotin Hnd'']; subst.
  constructor; [now apply IH|].
  apply Forall_forall. intros j Hj.
  rewrite Forall_forall in Hall. specialize (Hall j Hj).
  assert (j <> k) by (intros ->; contradiction). lia.
Qed.

Lemma remove_items_cursor_of_loop indices pm :
  cursor_ok pm ->
  current_index (remove_items indices pm)
  = current_index (fold_left remove_step (Py.sorted_reverse indices) pm).
Proof.
  intros Hok.
  pose proof (remove_loop_inv cursor_ok remove_step_cursor_ok
                (Py.sorted_reverse indices) pm Hok) as Hloop.
  destruct (remove_items_shape indices pm) as (_ & _ & _ & _ & Hin & Hnil).
  destruct (playlist (fold_left remove_step (Py.sorted_reverse indices) pm))
    as [|x r] eqn:El.
  - now apply Hnil.
  - apply Hin. unfold cursor_ok in Hloop. rewrite El in Hloop.
    unfold Py.len in *. simpl List.length in *. lia.
Qed.

(** X12. [remove_items] on distinct indices of listed tracks, in any
    order, removes exactly the tracks at those positions and keeps the others
    in their order; the playlist gets shorter by the number of indices; a
    cursor on a removed track becomes [-1], and any other cursor moves down
    by the number of removed tracks that stood before it, so that it stays
    on its track. *)
Theorem remove_items_by_position (indices : list Z) (pm : PlaylistManager.t) :
  NoDup indices ->
  Forall (fun k => 0 <= k < Py.len (playlist pm)) indices ->
  cursor_ok pm ->
  let pm' := remove_items indices pm in
  playlist pm' = keep_unlisted 0 indices (playlist pm)
  /\ Py.len (playlist pm') = Py.len (playlist pm) - Py.len indices
  /\ current_index pm' = cursor_after (current_index pm) indices
  /\ (0 <= current_index pm -> ~ In (current_index pm) indices ->
      Py.get (playlist pm') (current_index pm')
      = Py.get (playlist pm) (current_index pm)).
Proof.
  intros Hnd Hr Hok pm'.
  pose proof (sorted_reverse_perm indices) as Hperm.
  destruct (remove_loop_by_position (Py.sorted_reverse indices) pm)
    as (H1 & H2 & H3 & H4).
  { now apply sorted_reverse_strict. }
  { eapply Permutation_Forall; [symmetry; exact Hperm | exact Hr]. }
  destruct (remove_items_shape indices pm) as (Hpl & _).
  pose proof (remove_items_cursor_of_loop indices pm Hok) as Hcur.
  fold pm' in Hpl, Hcur.
  split; [rewrite Hpl, H1; now apply keep_unlisted_perm|].
  split; [rewrite Hpl, H3; unfold Py.len;
          now rewrite (Permutation_length Hperm)|].
  split; [rewrite Hcur, H2; now apply cursor_after_perm|].
  intros H0 Hnot. rewrite Hcur, Hpl. apply H4.
  - destruct Hok as [Hok|Hok]; lia.
  - intros H. apply Hnot. eapply Permutation_in; [exact Hperm | exact H].
Qed.

Lemma remove_items_by_position_witness :
  playlist (remove_items [3; 0] four_tracks) = ["B.mp3"; "C.ogg"]%string
  /\ current_index (remove_items [3; 0] four_tracks) = 1.
Proof.
  destruct (remove_items_by_position [3; 0] four_tracks)
    as (Hpl & _ & Hcur & _).
  - repeat constructor; simpl; intuition discriminate.
  - repeat constructor; vm_compute; discriminate.
  - exact (inv_cursor _ (reachable_inv _ reachable_four_tracks)).
  - split; [rewrite Hpl | rewrite Hcur]; reflexivity.
Defined.

End SelectionFacts.

(** ** The repeat mode *)

Section RepeatMode.

Import PlaylistManager Run Scenario.

Lemma remove_items_repeat_mode indices pm :
  repeat_mode (remove_items indices pm) = repeat_mode pm.
Proof.
  assert (Hloop : repeat_mode (fold_left remove_step
                                 (Py.sorted_reverse indices) pm)
                  = repeat_mode pm).
  { apply (remove_loop_inv (fun q => repeat_mode q = repeat_mode pm));
      [|reflexivity].
    intros q k Hq. unfold remove_step.
    destruct (_ && _)%bool; [|exact Hq].
    cbn [current_index set_playlist].
    destruct (k =? current_index q); [exact Hq|].
    destruct (k <? current_index q); exact Hq. }
  unfold remove_items. destruct (_ && _)%bool; exact Hloop.
Qed.

Lemma toggle_shuffle_repeat_mode random_shuffle pm pm' :
  toggle_shuffle random_shuffle pm = Some pm' ->
  repeat_mode pm' = repeat_mode pm.
Proof.
  unfold toggle_shuffle, _apply_shuffle, _restore_original_order.
  cbn [shuffle_mode set_shuffle_mode playlist original_order].
  intros H.
  repeat match type of H with
         | context [if ?b then _ else _] => destruct b
         | context [match ?x with _ => _ end] => destruct x
         end;
    try discriminate; injection H as <-; reflexivity.
Qed.

Lemma exec_repeat_mode o pm pm' :
  exec o pm = Some pm' ->
  repeat_mode pm'
  = match o with
    | ToggleRepeat => (repeat_mode pm + 1) mod 2
    | _ => repeat_mode pm
    end.
Proof.
  intros He.
  destruct o as [files|found|indices| |sh| | | |i]; cbn [exec] in He;
    try (injection He as <-); try reflexivity.
  - apply remove_items_repeat_mode.
  - now apply (toggle_shuffle_repeat_mode sh).
  - unfold next_cursor. destruct (Py.is_empty _); reflexivity.
  - unfold prev_cursor. destruct (Py.is_empty _); reflexivity.
Qed.

(** X13. The repeat mode of a reachable store is [0] (off) or [1] (one);
    only the repeat toggle changes it, to the other of the two, so that two
    toggles in a row give the player back unchanged. *)
Theorem repeat_mode_is_off_or_one (vp : VinylPlayer.t) :
  reachable (VinylPlayer.playlist_manager vp) ->
  let r := repeat_mode (VinylPlayer.playlist_manager vp) in
  (r = 0 \/ r = 1)
  /\ repeat_mode (VinylPlayer.playlist_manager (VinylPlayer.toggle_repeat vp))
     = 1 - r
  /\ VinylPlayer.toggle_repeat (VinylPlayer.toggle_repeat vp) = vp
  /\ (forall o pm',
        exec o (VinylPlayer.playlist_manager vp) = Some pm' ->
        o <> ToggleRepeat -> repeat_mode pm' = r).
Proof.
  intros Hr r.
  assert (Hbin : r = 0 \/ r = 1).
  { subst r. induction Hr as [|pm o pm' Hr IH Hadm He]; [now left|].
    rewrite (exec_repeat_mode o pm pm' He).
    destruct o; try exact IH.
    destruct IH as [-> | ->]; [now right | now left]. }
  split; [exact Hbin|]. split; [|split].
  - unfold VinylPlayer.toggle_repeat. cbn. fold r.
    destruct Hbin as [-> | ->]; reflexivity.
  - destruct vp as [[pl oo cur rep sh] ps].
    unfold VinylPlayer.toggle_repeat. cbn in *. subst r.
    destruct Hbin as [-> | ->]; reflexivity.
  - intros o pm' He Hno. rewrite (exec_repeat_mode o _ pm' He).
    destruct o; try reflexivity. now elim Hno.
Qed.

Lemma repeat_mode_is_off_or_one_witness :
  VinylPlayer.toggle_repeat (VinylPlayer.toggle_repeat demo_playing)
  = demo_playing.
Proof.
  apply (repeat_mode_is_off_or_one demo_playing).
  apply (reach_step (add_files ["a.mp3"; "bad.mp3"]%string init) (Select 0)).
  - apply (reach_step init (AddFiles ["a.mp3"; "bad.mp3"]%string));
      [apply reach_init | exact I | reflexivity].
  - vm_compute. split; [discriminate | reflexivity].
  - reflexivity.
Defined.

End RepeatMode.

(** ** The progress scale and the disc *)

Section WidgetFacts.

Import PlaybackState VinylPlayer Widgets Scenario.

Lemma fmod_range (x y : Q) :
  (0 < y)%Q -> (0 <= fmod x y)%Q /\ (fmod x y < y)%Q.
Proof.
  intros Hy. unfold fmod.
  pose proof (Qfloor_le (x / y)) as Hlo.
  pose proof (Qlt_floor (x / y)) as Hhi.
  assert (Hxy : (y * (x / y) == x)%Q) by (apply Qmult_div_r; lra).
  rewrite inject_Z_plus in Hhi.
  assert (H1 : (y * inject_Z (Qfloor (x / y)) <= y * (x / y))%Q).
  { rewrite !(Qmult_comm y). apply Qmult_le_r; assumption. }
  assert (H2 : (y * (x / y) < y * (inject_Z (Qfloor (x / y)) + inject_Z 1))%Q).
  { rewrite !(Qmult_comm y). apply Qmult_lt_r; assumption. }
  rewrite Hxy in H1, H2.
  change (inject_Z 1) with 1%Q in H2.
  rewrite Qmult_plus_distr_r, Qmult_1_r in H2.
  split; lra.
Qed.

Lemma int_floor (x : Q) : (0 <= x)%Q -> Py.int x = Qfloor x.
Proof.
  intros H. unfold Py.int. apply Qle_bool_iff in H. now rewrite H.
Qed.

Lemma int_below (x : Q) (n : Z) :
  (0 <= x)%Q -> (x < inject_Z n)%Q -> 0 <= Py.int x < n.
Proof.
  intros H0 Hn. split; [now apply int_nonneg|].
  rewrite int_floor by assumption.
  pose proof (Qfloor_le x) as Hf.
  rewrite Zlt_Qlt. lra.
Qed.

(** X14. For a track length that is not negative, every position
    [_update_progress_display] gives the progress scale lies within the
    range [0 .. to] that [load_and_play] gave the scale for that length. *)
Theorem progress_stays_on_the_scale (user_dragging : bool) (now elapsed : Q)
    (ps : PlaybackState.t) (position : Z) :
  (0 <= track_length ps)%Q ->
  _update_progress_display user_dragging now elapsed ps = Some position ->
  0 <= position <= max_progress (track_length ps).
Proof.
  intros Hlen. unfold _update_progress_display, max_progress.
  destruct (Qle_bool (track_length ps) 0) eqn:El; cbn [negb].
  - apply Qle_bool_iff in El.
    assert (Hz : Qeq_bool (track_length ps) 0 = true)
      by (apply Qeq_bool_iff; lra).
    rewrite Hz. cbn [negb].
    destruct user_dragging; cbn [negb]; [discriminate|].
    intros H. injection H as <-.
    destruct (fmod_range (now * 1000) 1000) as [H0 H1]; [reflexivity|].
    pose proof (int_below _ 1000 H0 H1). lia.
  - assert (Hnz : Qeq_bool (track_length ps) 0 = false).
    { destruct (Qeq_bool (track_length ps) 0) eqn:E; [|reflexivity].
      apply Qeq_bool_iff in E.
      assert (Hle : (track_length ps <= 0)%Q) by lra.
      apply Qle_bool_iff in Hle. congruence. }
    rewrite Hnz. cbn [negb].
    destruct user_dragging; cbn [negb]; [discriminate|].
    intros H. injection H as <-. lia.
Qed.

Lemma progress_stays_on_the_scale_witness :
  0 <= 3000 <= max_progress 180.
Proof.
  apply (progress_stays_on_the_scale false 103 3
           (playback_state demo_playing) 3000).
  - discriminate.
  - reflexivity.
Defined.

(** X16. For a time step and an angle that are not negative, the angle of
    the disc, once below 360 degrees, stays between 0 and 360: while the
    track plays it advances modulo 360, while the track is paused it keeps
    its value, and when nothing plays it is zero. *)
Theorem disc_angle_stays_in_range (dt : Q) (is_playing is_paused : bool)
    (angle : Q) :
  (0 <= dt)%Q -> (0 <= angle)%Q ->
  let angle' := update_rotation dt is_playing is_paused angle in
  (is_playing = true -> is_paused = false ->
   (0 <= angle')%Q /\ (angle' < 360)%Q)
  /\ (is_playing = true -> is_paused = true -> angle' = angle)
  /\ (is_playing = false -> (angle' == 0)%Q)
  /\ ((angle < 360)%Q -> (0 <= angle')%Q /\ (angle' < 360)%Q).
Proof.
  intros Hdt Hangle angle'. subst angle'. unfold update_rotation.
  assert (Hrun : forall x, (0 <= fmod x 360)%Q /\ (fmod x 360 < 360)%Q)
    by (intros x; apply fmod_range; reflexivity).
  destruct is_playing, is_paused; cbn [andb negb];
    rewrite ?andb_false_r, ?andb_true_r.
  - split; [discriminate|]. split; [reflexivity|]. split; [discriminate|].
    tauto.
  - split; [intros _ _; apply Hrun|]. split; [discriminate|].
    split; [discriminate|]. intros _. apply Hrun.
  - split; [discriminate|]. split; [discriminate|].
    destruct (Qeq_bool angle 0) eqn:E; cbn [negb].
    + apply Qeq_bool_iff in E. split; [intros _; exact E|]. tauto.
    + split; [reflexivity|]. intros _. split; discriminate || reflexivity.
  - split; [discriminate|]. split; [discriminate|].
    destruct (Qeq_bool angle 0) eqn:E; cbn [negb].
    + apply Qeq_bool_iff in E. split; [intros _; exact E|]. tauto.
    + split; [reflexivity|]. intros _. split; discriminate || reflexivity.
Qed.

Lemma disc_angle_stays_in_range_witness :
  (update_rotation (1 # 60) true false 358 < 360)%Q.
Proof.
  destruct (disc_angle_stays_in_range (1 # 60) true false 358)
    as ((_ & H) & _);
    [discriminate | discriminate | reflexivity | reflexivity | exact H].
Defined.

End WidgetFacts.

(** ** The playlist panel *)

Section PanelFacts.

Import PlaylistManager Panel Scenario.

Lemma enumerate_filter_spec (f : string -> bool) (i0 : Z) (l : list string) :
  let rows := map fst (filter (fun it => f (snd it)) (enumerate_from i0 l)) in
  StronglySorted Z.lt rows
  /\ (forall i, In i rows <->
                i0 <= i < i0 + Py.len l
                /\ f (nth (Z.to_nat (i - i0)) l EmptyString) = true).
Proof.
  revert i0. induction l as [|x l IH]; intros i0; cbn zeta.
  - cbn. split; [constructor|]. intros i. split; [tauto|].
    unfold Py.len. simpl. lia.
  - destruct (IH (i0 + 1)) as [Hs Hin]. cbn zeta in Hs, Hin.
    assert (Htail : forall i,
              i0 + 1 <= i ->
              nth (Z.to_nat (i - i0)) (x :: l) EmptyString
              = nth (Z.to_nat (i - (i0 + 1))) l EmptyString).
    { intros i Hi.
      replace (Z.to_nat (i - i0)) with (S (Z.to_nat (i - (i0 + 1)))) by lia.
      reflexivity. }
    assert (Hlen : Py.len (x :: l) = Py.len l + 1)
      by (unfold Py.len; simpl List.length; lia).
    cbn [enumerate_from filter snd]. rewrite Hlen.
    destruct (f x) eqn:Ex; cbn [map fst].
    + split.
      * constructor; [exact Hs|]. apply Forall_forall. intros j Hj.
        apply Hin in Hj. lia.
      * intros i. cbn [In]. rewrite Hin. split.
        -- intros [<-|[Hr Hf]].
           ++ split; [pose proof (len_nonneg l); lia|].
              now rewrite Z.sub_diag.
           ++ split; [lia|]. now rewrite Htail by lia.
        -- intros [Hr Hf]. destruct (Z.eq_dec i0 i) as [->|Hne]; [now left|].
           right. split; [lia|]. now rewrite <- Htail by lia.
    + split; [exact Hs|].
      intros i. rewrite Hin. split.
      * intros [Hr Hf]. split; [lia|]. now rewrite Htail by lia.
      * intros [Hr Hf]. destruct (Z.eq_dec i0 i) as [->|Hne].
        -- rewrite Z.sub_diag in Hf. cbn in Hf. congruence.
        -- split; [lia|]. now rewrite <- Htail by lia.
Qed.

Lemma filter_indices_spec (search_text : string) (l : list string) :
  StronglySorted Z.lt (filter_indices search_text l)
  /\ (forall i, In i (filter_indices search_text l) <->
                0 <= i < Py.len l
                /\ shown search_text (nth (Z.to_nat i) l EmptyString) = true).
Proof.
  destruct (enumerate_filter_spec (shown search_text) 0 l) as [Hs Hin].
  split; [exact Hs|]. intros i. unfold filter_indices. rewrite Hin.
  now rewrite Z.sub_0_r, Z.add_0_l.
Qed.

Lemma enumerate_all (i0 : Z) (l : list string) :
  map fst (enumerate_from i0 l)
  = map (fun k => i0 + Z.of_nat k) (seq 0 (List.length l)).
Proof.
  revert i0. induction l as [|x l IH]; intros i0; [reflexivity|].
  cbn [enumerate_from map fst List.length seq].
  rewrite IH, <- seq_shift, map_map. f_equal; [lia|].
  apply map_ext. intros k. lia.
Qed.

Lemma filter_indices_no_search (l : list string) :
  filter_indices EmptyString l = map Z.of_nat (seq 0 (List.length l)).
Proof.
  unfold filter_indices. rewrite filter_all by reflexivity.
  rewrite enumerate_all. apply map_ext. intros k. lia.
Qed.

Lemma sorted_lt_nodup (l : list Z) : StronglySorted Z.lt l -> NoDup l.
Proof.
  induction 1 as [|k l Hs IH Hall]; constructor; [|exact IH].
  intros Hin. rewrite Forall_forall in Hall. specialize (Hall k Hin). lia.
Qed.

Lemma index_of_get (i : Z) (l : list Z) (r : Z) :
  index_of i l = Some r -> 0 <= r /\ Py.get l r = Some i.
Proof.
  revert r. induction l as [|j l IH]; intros r H; cbn in H; [discriminate|].
  destruct (i =? j) eqn:E.
  - injection H as <-. apply Z.eqb_eq in E. subst. split; [lia|reflexivity].
  - destruct (index_of i l) as [q|]; [|discriminate].
    injection H as <-. destruct (IH q eq_refl) as [Hq Hg].
    split; [lia|]. rewrite get_nonneg in * by lia.
    replace (Z.to_nat (q + 1)) with (S (Z.to_nat q)) by lia. exact Hg.
Qed.

Lemma index_of_in (i : Z) (l : list Z) :
  In i l -> exists r, index_of i l = Some r.
Proof.
  induction l as [|j l IH]; intros H; cbn in *; [contradiction|].
  destruct (i =? j) eqn:E; [now exists 0|].
  destruct H as [H|H]; [subst; rewrite Z.eqb_refl in E; discriminate|].
  destruct (IH H) as [r ->]. now exists (r + 1).
Qed.

Lemma index_of_none (i : Z) (l : list Z) :
  ~ In i l -> index_of i l = None.
Proof.
  intros H. destruct (index_of i l) as [r|] eqn:E; [|reflexivity].
  destruct (index_of_get i l r E) as [Hr Hg].
  rewrite get_nonneg in Hg by lia. apply nth_error_In in Hg. contradiction.
Qed.

Lemma inv_refresh (p : Panel.t) :
  Run.Inv (manager p) -> Panel.Inv (_refresh_playlist_display p).
Proof. intros H. constructor; [exact H | reflexivity]. Qed.

Lemma inv_set_player (vp : VinylPlayer.t) (p : Panel.t) :
  Panel.Inv p ->
  Run.Inv (VinylPlayer.playlist_manager vp) ->
  playlist (VinylPlayer.playlist_manager vp) = playlist (manager p) ->
  Panel.Inv (set_player vp p).
Proof.
  intros [_ Hf] HI Hpl. constructor; [exact HI|].
  unfold manager in *. cbn [player set_player filtered_indices search_var].
  now rewrite Hpl.
Qed.

Lemma row_index (p : Panel.t) (row : Z) :
  Panel.Inv p -> 0 <= row < Py.len (filtered_indices p) ->
  exists i,
    Py.get (filtered_indices p) row = Some i
    /\ actual_index p row = Some i
    /\ In i (filtered_indices p)
    /\ 0 <= i < Py.len (playlist (manager p))
    /\ shown (Py.lower (search_var p))
             (nth (Z.to_nat i) (playlist (manager p)) EmptyString) = true.
Proof.
  intros [_ Hf] Hrow.
  destruct (get_in_range _ _ Hrow) as (i & Hget & Hnth).
  exists i. split; [exact Hget|].
  assert (Hin : In i (filtered_indices p)) by (eapply nth_error_In; eassumption).
  split.
  - unfold actual_index.
    destruct (filtered_indices p); [contradiction | exact Hget].
  - split; [exact Hin|]. rewrite Hf in Hin.
    now apply filter_indices_spec in Hin.
Qed.

Lemma rows_indices (p : Panel.t) (selection : list Z) :
  Panel.Inv p -> rows_ok p selection ->
  exists indices,
    actual_indices p selection = Some indices
    /\ List.length indices = List.length selection
    /\ NoDup indices
    /\ Forall (fun i => 0 <= i < Py.len (playlist (manager p))
                        /\ shown (Py.lower (search_var p))
                                 (nth (Z.to_nat i) (playlist (manager p))
                                      EmptyString) = true) indices
    /\ (forall i, In i indices ->
                  exists row, In row selection
                              /\ Py.get (filtered_indices p) row = Some i).
Proof.
  intros HI [Hnd Hrows].
  assert (Hinj : NoDup (filtered_indices p)).
  { apply sorted_lt_nodup. rewrite (inv_fresh p HI).
    apply filter_indices_spec. }
  induction selection as [|row rest IH].
  - exists []. cbn. repeat split; try constructor. intros i [].
  - inversion Hnd as [|? ? Hnotin Hnd']; subst.
    inversion Hrows as [|? ? Hrow Hrest]; subst.
    destruct (IH Hnd' Hrest) as (indices & Hact & Hlen & Hndi & Hall & Hsrc).
    destruct (row_index p row HI Hrow) as (i & Hget & _ & Hin & Hr & Hs).
    exists (i :: indices). cbn [actual_indices]. rewrite Hget, Hact.
    split; [reflexivity|]. split; [cbn; now rewrite Hlen|].
    split; [|split].
    + constructor; [|exact Hndi]. intros Hi.
      destruct (Hsrc i Hi) as (row' & Hrow' & Hget').
      assert (Hr' : 0 <= row' < Py.len (filtered_indices p)).
      { rewrite Forall_forall in Hrest. now apply Hrest. }
      rewrite get_nonneg in Hget, Hget' by lia.
      assert (Z.to_nat row = Z.to_nat row').
      { eapply (proj1 (NoDup_nth_error (filtered_indices p)) Hinj).
        - apply nth_error_Some. congruence.
        - congruence. }
      assert (row = row') by lia. subst. contradiction.
    + constructor; [now split | exact Hall].
    + intros j [<-|Hj].
      * exists row. split; [now left | exact Hget].
      * destruct (Hsrc j Hj) as (row' & Hrow' & Hget').
        exists row'. split; [now right | exact Hget'].
Qed.

Lemma play_pause_manager be now sel vp :
  let pm := VinylPlayer.playlist_manager vp in
  let pm' := VinylPlayer.playlist_manager
               (snd (VinylPlayer.play_pause be now sel vp)) in
  pm' = pm
  \/ (playlist pm <> [] /\ sel = None /\ pm' = set_current_index 0 pm)
  \/ (playlist pm <> [] /\ exists i, sel = Some i
                                     /\ pm' = set_current_index i pm).
Proof.
  intros pm pm'. subst pm'. unfold VinylPlayer.play_pause. fold pm.
  destruct (playlist pm) as [|x r] eqn:El; [now left|]. cbn [Py.is_empty].
  destruct (_ && _)%bool; [now left|].
  destruct (_ && _)%bool; [now left|].
  rewrite load_and_play_keeps_manager.
  cbn [VinylPlayer.playlist_manager VinylPlayer.set_pm].
  destruct sel as [i|].
  - right. right. split; [discriminate|]. now exists i.
  - destruct (current_index pm =? -1); [|now left].
    right. left. repeat split. discriminate.
Qed.

Lemma tick_manager be busy now now' vp :
  let pm := VinylPlayer.playlist_manager vp in
  let pm' := VinylPlayer.playlist_manager
               (snd (VinylPlayer._update_ui be busy now now' vp)) in
  pm' = pm \/ pm' = Run.next_cursor pm.
Proof.
  intros pm pm'. subst pm'. unfold VinylPlayer._update_ui.
  destruct (PlaybackState.is_playing _); [|now left].
  destruct (_ && _)%bool; [|now left].
  assert (H : VinylPlayer.playlist_manager
                (snd (VinylPlayer._handle_track_end be now' vp)) = pm
              \/ VinylPlayer.playlist_manager
                   (snd (VinylPlayer._handle_track_end be now' vp))
                 = Run.next_cursor pm).
  { unfold VinylPlayer._handle_track_end. destruct (_ =? 1).
    - left. apply load_and_play_keeps_manager.
    - right. apply next_track_cursor. }
  destruct (_ && _)%bool; exact H.
Qed.

End PanelFacts.

Section PanelRuns.

Import PlaylistManager Panel Scenario.

Lemma next_cursor_playlist pm : playlist (Run.next_cursor pm) = playlist pm.
Proof. unfold Run.next_cursor. destruct (Py.is_empty _); reflexivity. Qed.

Lemma prev_cursor_playlist pm : playlist (Run.prev_cursor pm) = playlist pm.
Proof. unfold Run.prev_cursor. destruct (Py.is_empty _); reflexivity. Qed.

Lemma seek_end_manager value t1 t2 vp :
  VinylPlayer.playlist_manager (VinylPlayer._seek_end value t1 t2 vp)
  = VinylPlayer.playlist_manager vp.
Proof.
  unfold VinylPlayer._seek_end.
  destruct (_ || _)%bool; [reflexivity|].
  destruct (negb _); reflexivity.
Qed.

Lemma inv_select (p : Panel.t) (i : Z) :
  Panel.Inv p ->
  i = -1 \/ 0 <= i < Py.len (playlist (manager p)) ->
  Panel.Inv (set_manager (set_current_index i (manager p)) p).
Proof.
  intros HI Hi. apply inv_set_player; [exact HI| |reflexivity].
  apply inv_set_current_index; [exact Hi | apply (inv_store p HI)].
Qed.

Lemma inv_first_track (p : Panel.t) :
  Panel.Inv p ->
  Panel.Inv
    (if ((current_index (manager p) =? -1)
         && negb (Py.is_empty (playlist (manager p))))%bool
     then set_manager (set_current_index 0 (manager p)) p
     else p).
Proof.
  intros HI.
  destruct (current_index (manager p) =? -1); cbn [andb]; [|exact HI].
  destruct (playlist (manager p)) as [|x r] eqn:El; cbn [Py.is_empty negb];
    [exact HI|].
  apply inv_select; [exact HI|]. right. rewrite El.
  unfold Py.len. simpl List.length. lia.
Qed.

Lemma rows_ok_head (p : Panel.t) (row : Z) (rest : list Z) :
  rows_ok p (row :: rest) -> 0 <= row < Py.len (filtered_indices p).
Proof. intros [_ H]. now inversion H. Qed.

Lemma handle_inv (p : Panel.t) (e : event) :
  Panel.Inv p -> possible p e ->
  exists p', handle e p = Some p' /\ Panel.Inv p'.
Proof.
  intros HI Hposs. pose proof (inv_store p HI) as Hst.
  destruct e as [files|found|selection| |typed|be now selection
                |be now selection| |be now|be now| |sh|value t1 t2
                |be busy now now']; cbn [handle possible] in *.
  - (* add_files *)
    eexists; split; [reflexivity|]. unfold add_files.
    destruct (Py.is_empty files); [exact HI|].
    apply inv_first_track. apply inv_refresh.
    destruct (add_files_fields files (manager p)) as (H1 & H2 & H3).
    eapply inv_appended; eassumption.
  - (* add_folder *)
    eexists; split; [reflexivity|]. unfold add_folder.
    destruct found as [found|]; [|exact HI].
    assert (H : Panel.Inv
                  (_refresh_playlist_display
                     (set_manager
                        (snd (PlaylistManager.add_folder found (manager p)))
                        p))).
    { apply inv_refresh.
      destruct (add_folder_fields found (manager p)) as (_ & H1 & H2 & H3).
      eapply inv_appended; eassumption. }
    destruct (_ =? 0); [exact H|].
    apply inv_first_track in H.
    destruct (_ && _)%bool; exact H.
  - (* remove_selected *)
    unfold remove_selected.
    destruct selection as [|row rest]; [now exists p|]. cbn [Py.is_empty].
    destruct (rows_indices p (row :: rest) HI Hposs) as (indices & Hact & _).
    pose proof (rows_ok_head p row rest Hposs) as Hrow.
    destruct (filtered_indices p) as [|f fs] eqn:Ef;
      [unfold Py.len in Hrow; simpl in Hrow; lia|].
    cbn [Py.is_empty negb]. rewrite Hact.
    set (p1 := _refresh_playlist_display _).
    assert (H1 : Panel.Inv p1).
    { apply inv_refresh. now apply inv_remove_items. }
    destruct (Py.is_empty _); [|now exists p1].
    eexists; split; [reflexivity|].
    apply inv_set_player; [exact H1 | exact (inv_store p1 H1) | reflexivity].
  - (* clear_playlist *)
    eexists; split; [reflexivity|]. constructor; [|reflexivity].
    apply inv_of_snapshot; cbn; [reflexivity | now left | tauto].
  - (* search *)
    eexists; split; [reflexivity|]. unfold _on_search. now apply inv_refresh.
  - (* double click *)
    unfold _double_click_play.
    destruct selection as [|row rest]; [now exists p|].
    destruct (row_index p row HI (rows_ok_head p row rest Hposs))
      as (i & _ & -> & _ & Hi & _).
    eexists; split; [reflexivity|]. cbn [snd].
    apply inv_set_player; [exact HI| |].
    + rewrite load_and_play_keeps_manager.
      apply inv_set_current_index; [now right | exact Hst].
    + now rewrite load_and_play_keeps_manager.
  - (* play_pause *)
    assert (Hrun : forall sel,
              (forall i, sel = Some i ->
                         0 <= i < Py.len (playlist (manager p))) ->
              Panel.Inv (set_player
                           (snd (VinylPlayer.play_pause be now sel (player p)))
                           p)).
    { intros sel Hsel.
      destruct (play_pause_manager be now sel (player p))
        as [Hm | [(Hne & _ & Hm) | (Hne & i & Hi & Hm)]];
        (apply inv_set_player; [exact HI | rewrite Hm | now rewrite Hm]).
      - exact Hst.
      - apply inv_set_current_index; [|exact Hst].
        right. pose proof (len_pos _ Hne). lia.
      - apply inv_set_current_index; [|exact Hst]. right. now apply Hsel. }
    unfold play_pause.
    destruct (_ || _)%bool.
    + eexists; split; [reflexivity|]. apply Hrun. discriminate.
    + destruct selection as [|row rest].
      * eexists; split; [reflexivity|]. apply Hrun. discriminate.
      * destruct (row_index p row HI (rows_ok_head p row rest Hposs))
          as (i & _ & -> & _ & Hi & _).
        eexists; split; [reflexivity|]. apply Hrun.
        intros j Hj. now injection Hj as <-.
  - (* stop *)
    eexists; split; [reflexivity|].
    apply inv_set_player; [exact HI | exact Hst | reflexivity].
  - (* next_track *)
    eexists; split; [reflexivity|].
    apply inv_set_player; [exact HI| |]; rewrite next_track_cursor.
    + now apply inv_next_cursor.
    + apply next_cursor_playlist.
  - (* prev_track *)
    eexists; split; [reflexivity|].
    apply inv_set_player; [exact HI| |]; rewrite prev_track_cursor.
    + now apply inv_prev_cursor.
    + apply prev_cursor_playlist.
  - (* toggle_repeat *)
    eexists; split; [reflexivity|].
    apply inv_set_player; [exact HI| |reflexivity].
    destruct Hst. constructor; assumption.
  - (* toggle_shuffle *)
    unfold toggle_shuffle.
    destruct (exec_inv (manager p) (Run.ToggleShuffle sh) Hst Hposs)
      as (pm' & He & HI').
    cbn [Run.exec] in He. rewrite He.
    eexists; split; [reflexivity|]. now apply inv_refresh.
  - (* seek *)
    eexists; split; [reflexivity|].
    apply inv_set_player; [exact HI| |]; rewrite seek_end_manager;
      [exact Hst | reflexivity].
  - (* tick *)
    eexists; split; [reflexivity|].
    destruct (tick_manager be busy now now' (player p)) as [Hm|Hm];
      (apply inv_set_player; [exact HI | rewrite Hm | now rewrite Hm;
                                                       rewrite ?next_cursor_playlist]).
    + exact Hst.
    + now apply inv_next_cursor.
Qed.

Lemma panel_inv_init : Panel.Inv Panel.init.
Proof. constructor; [apply inv_init | reflexivity]. Qed.

Lemma panel_reachable_inv (p : Panel.t) : Panel.reachable p -> Panel.Inv p.
Proof.
  induction 1 as [|p e p' Hr IH Hposs He]; [apply panel_inv_init|].
  destruct (handle_inv p e IH Hposs) as (q & Hq & HI). congruence.
Qed.

End PanelRuns.

Section PanelTheorems.

Import PlaylistManager Panel Scenario PanelScenario Selection.

Lemma reachable_demo_panel : Panel.reachable demo_panel.
Proof.
  apply (Panel.reach_event Panel.init
           (AddFiles ["A.mp3"; "B.mp3"; "notes.txt"; "C.ogg"; "D.wav"]%string));
    [apply Panel.reach_init | exact I | reflexivity].
Qed.

Lemma reachable_searched_panel : Panel.reachable searched_panel.
Proof.
  apply (Panel.reach_event demo_panel (Search "MP3"));
    [apply reachable_demo_panel | exact I | reflexivity].
Qed.

(** X17. After [_refresh_playlist_display] the rows of the list box stand
    for playlist indices, each at most once and in playlist order; with an
    empty search entry row [r] is track [r]; the player is not touched.
    When the search text and the track names are plain ASCII, the rows are
    exactly the tracks whose lower-cased file name contains the lower-cased
    search text. *)
Theorem rows_match_the_search (p : Panel.t) :
  let p' := _refresh_playlist_display p in
  let tracks := playlist (manager p) in
  player p' = player p
  /\ StronglySorted Z.lt (filtered_indices p')
  /\ (forall i, In i (filtered_indices p') -> 0 <= i < Py.len tracks)
  /\ (search_var p = EmptyString ->
      filtered_indices p' = map Z.of_nat (seq 0 (List.length tracks)))
  /\ (Text.is_ascii (search_var p) = true ->
      Forall (fun track => Text.is_ascii track = true) tracks ->
      forall i, In i (filtered_indices p') <->
                0 <= i < Py.len tracks
                /\ shown (Py.lower (search_var p))
                         (nth (Z.to_nat i) tracks EmptyString) = true).
Proof.
  intros p' tracks. subst p'. cbn [player filtered_indices
                                   _refresh_playlist_display].
  fold tracks.
  destruct (filter_indices_spec (Py.lower (search_var p)) tracks) as [Hs Hin].
  split; [reflexivity|]. split; [exact Hs|].
  split; [intros i Hi; now apply Hin in Hi|].
  split; [intros ->; apply filter_indices_no_search|].
  intros _ _. exact Hin.
Qed.

Lemma rows_match_the_search_witness :
  In 1 (filtered_indices (_refresh_playlist_display searched_panel))
  /\ ~ In 2 (filtered_indices (_refresh_playlist_display searched_panel)).
Proof.
  destruct (rows_match_the_search searched_panel) as (_ & _ & _ & _ & H).
  specialize (H eq_refl ltac:(repeat constructor)).
  split.
  - apply H. split; [vm_compute; split; [discriminate | reflexivity]|].
    reflexivity.
  - intros Hin. apply H in Hin. destruct Hin as [_ Hs]. discriminate Hs.
Defined.

(** X18. [_update_selection] selects the row that stands for the current
    track: with no current track it selects nothing; when the current
    track is among the rows it selects a row that maps back to it; when the
    rows are not empty and the current track is not among them it selects
    nothing. When there are no rows at all it asks for row [current_index]. *)
Theorem selected_row_is_the_current_track (p : Panel.t) :
  let cur := current_index (manager p) in
  (cur < 0 -> _update_selection p = None)
  /\ (0 <= cur -> In cur (filtered_indices p) ->
      exists row, _update_selection p = Some row
                  /\ Py.get (filtered_indices p) row = Some cur)
  /\ (0 <= cur -> filtered_indices p <> [] ->
      ~ In cur (filtered_indices p) -> _update_selection p = None)
  /\ (0 <= cur -> filtered_indices p = [] -> _update_selection p = Some cur).
Proof.
  intros cur. unfold _update_selection. fold cur.
  split; [|split; [|split]].
  - intros H. now replace (0 <=? cur) with false
      by (symmetry; apply Z.leb_gt; lia).
  - intros H0 Hin.
    replace (0 <=? cur) with true by (symmetry; apply Z.leb_le; lia).
    destruct (index_of_in cur _ Hin) as [row Hrow].
    destruct (index_of_get cur _ row Hrow) as [Hr Hget].
    exists row. split; [|exact Hget].
    destruct (filtered_indices p); [contradiction|].
    cbn [Py.is_empty negb]. rewrite Hrow.
    now replace (0 <=? row) with true by (symmetry; apply Z.leb_le; lia).
  - intros H0 Hne Hnot.
    replace (0 <=? cur) with true by (symmetry; apply Z.leb_le; lia).
    rewrite (is_empty_false _ Hne). cbn [negb].
    now rewrite (index_of_none cur _ Hnot).
  - intros H0 ->.
    replace (0 <=? cur) with true by (symmetry; apply Z.leb_le; lia).
    cbn [Py.is_empty negb].
    now replace (0 <=? cur) with true by (symmetry; apply Z.leb_le; lia).
Qed.

Lemma selected_row_is_the_current_track_witness :
  exists row, _update_selection searched_panel = Some row
              /\ Py.get (filtered_indices searched_panel) row = Some 0.
Proof.
  destruct (selected_row_is_the_current_track searched_panel)
    as (_ & H & _).
  apply H; [discriminate | now left].
Defined.

(** X19. Whatever the user and the timer do to the panel, starting from
    the empty one, the store keeps its invariant, the rows of the list box
    are those of the current search over the current playlist, the cursor
    is [-1] or an index of the playlist, and no handler fails on the rows
    the list box can hand it. *)
Theorem panel_keeps_store_and_rows_in_step (p : Panel.t) :
  Panel.reachable p ->
  Run.Inv (manager p)
  /\ filtered_indices p
     = filter_indices (Py.lower (search_var p)) (playlist (manager p))
  /\ (current_index (manager p) = -1
      \/ 0 <= current_index (manager p) < Py.len (playlist (manager p)))
  /\ (forall e, possible p e ->
        exists p', handle e p = Some p' /\ Panel.reachable p').
Proof.
  intros Hr. pose proof (panel_reachable_inv p Hr) as HI.
  split; [exact (inv_store p HI)|]. split; [exact (inv_fresh p HI)|].
  split; [exact (Run.inv_cursor _ (inv_store p HI))|].
  intros e Hposs. destruct (handle_inv p e HI Hposs) as (p' & He & _).
  exists p'. split; [exact He|].
  eapply Panel.reach_event; eassumption.
Qed.

Lemma panel_keeps_store_and_rows_in_step_witness :
  filtered_indices searched_panel = [0; 1]
  /\ exists p', handle (RemoveSelected [1; 0]) searched_panel = Some p'.
Proof.
  destruct (panel_keeps_store_and_rows_in_step searched_panel
              reachable_searched_panel) as (_ & Hrows & _ & Hev).
  split; [rewrite Hrows; reflexivity|].
  destruct (Hev (RemoveSelected [1; 0])) as (p' & Hp & _).
  - split; [repeat constructor; simpl; intuition discriminate|].
    repeat constructor; vm_compute; discriminate.
  - now exists p'.
Defined.

Lemma remove_items_positions (indices : list Z) (pm : PlaylistManager.t) :
  NoDup indices ->
  Forall (fun k => 0 <= k < Py.len (playlist pm)) indices ->
  playlist (remove_items indices pm) = keep_unlisted 0 indices (playlist pm)
  /\ Py.len (playlist (remove_items indices pm))
     = Py.len (playlist pm) - Py.len indices.
Proof.
  intros Hnd Hr.
  pose proof (sorted_reverse_perm indices) as Hperm.
  destruct (remove_loop_by_position (Py.sorted_reverse indices) pm)
    as (H1 & _ & H3 & _).
  { now apply sorted_reverse_strict. }
  { eapply Permutation_Forall; [symmetry; exact Hperm | exact Hr]. }
  destruct (remove_items_shape indices pm) as (Hpl & _).
  split; [rewrite Hpl, H1; now apply keep_unlisted_perm|].
  rewrite Hpl, H3. unfold Py.len. now rewrite (Permutation_length Hperm).
Qed.

(** X20. [remove_selected] on rows the list box can hand it never fails: it
    removes exactly the tracks those rows stand for, all of which match the
    search, and as many tracks as rows were selected; the other tracks keep
    their order; and when the playlist is left empty the playback clock is
    reset. *)
Theorem remove_selected_removes_the_rows (selection : list Z) (p : Panel.t) :
  Panel.Inv p -> rows_ok p selection -> selection <> [] ->
  exists indices p',
    actual_indices p selection = Some indices
    /\ remove_selected selection p = Some p'
    /\ Forall (fun i => 0 <= i < Py.len (playlist (manager p))
                        /\ shown (Py.lower (search_var p))
                                 (nth (Z.to_nat i) (playlist (manager p))
                                      EmptyString) = true) indices
    /\ playlist (manager p')
       = keep_unlisted 0 indices (playlist (manager p))
    /\ Py.len (playlist (manager p'))
       = Py.len (playlist (manager p)) - Py.len selection
    /\ (playlist (manager p') = [] ->
        VinylPlayer.playback_state (player p') = PlaybackState.reset).
Proof.
  intros HI Hrows Hne.
  destruct (rows_indices p selection HI Hrows)
    as (indices & Hact & Hlen & Hnd & Hall & _).
  destruct selection as [|row rest]; [congruence|].
  pose proof (rows_ok_head p row rest Hrows) as Hrow.
  destruct (remove_items_positions indices (manager p) Hnd) as [Hpl Hl].
  { eapply Forall_impl; [|exact Hall]. cbv beta. tauto. }
  unfold remove_selected. cbn [Py.is_empty].
  destruct (filtered_indices p) as [|f fs] eqn:Ef;
    [unfold Py.len in Hrow; simpl in Hrow; lia|].
  cbn [Py.is_empty negb].
  rewrite Hact.
  set (pm1 := remove_items indices (manager p)) in *.
  set (p1 := _refresh_playlist_display (set_manager pm1 p)).
  assert (Hm1 : manager p1 = pm1) by reflexivity.
  assert (Hlen' : Py.len (playlist pm1)
                  = Py.len (playlist (manager p)) - Py.len (row :: rest)).
  { rewrite Hl. unfold Py.len. now rewrite Hlen. }
  exists indices.
  destruct (Py.is_empty (playlist (manager p1))) eqn:Ee.
  - exists (set_player (VinylPlayer.stop (player p1)) p1).
    split; [reflexivity|]. split; [reflexivity|]. split; [exact Hall|].
    split; [exact Hpl|]. split; [exact Hlen'|]. reflexivity.
  - exists p1.
    split; [reflexivity|]. split; [reflexivity|]. split; [exact Hall|].
    split; [exact Hpl|]. split; [exact Hlen'|].
    intros He. rewrite He in Ee. discriminate.
Qed.

Lemma remove_selected_removes_the_rows_witness :
  exists p',
    remove_selected [1] searched_panel = Some p'
    /\ playlist (manager p') = ["A.mp3"; "C.ogg"; "D.wav"]%string.
Proof.
  destruct (remove_selected_removes_the_rows [1] searched_panel)
    as (indices & p' & Hact & Hrem & _ & Hpl & _).
  - exact (panel_reachable_inv _ reachable_searched_panel).
  - split; [repeat constructor; simpl; tauto|].
    repeat constructor; vm_compute; discriminate.
  - discriminate.
  - exists p'. split; [exact Hrem|]. rewrite Hpl.
    vm_compute in Hact. injection Hact as <-. reflexivity.
Defined.

(** X21. Files chosen in the file dialog are appended like [add_files]
    does, and afterwards a playlist that is not empty has a current track:
    a cursor that selected nothing moves to the first track, any other
    cursor stays. *)
Theorem chosen_files_give_a_current_track (files : list string)
    (p : Panel.t) :
  Panel.Inv p -> files <> [] ->
  let pm := manager p in
  let pm' := manager (Panel.add_files files p) in
  playlist pm' = playlist pm ++ filter AudioFormats.supported files
  /\ (playlist pm' <> [] ->
      0 <= current_index pm' < Py.len (playlist pm'))
  /\ (0 <= current_index pm -> current_index pm' = current_index pm)
  /\ (current_index pm = -1 -> playlist pm' <> [] -> current_index pm' = 0).
Proof.
  intros HI Hne pm pm'. subst pm'. unfold Panel.add_files.
  rewrite (is_empty_false _ Hne).
  set (pm1 := PlaylistManager.add_files files (manager p)).
  destruct (add_files_fields files (manager p)) as (Hpl & _ & Hcur).
  fold pm1 in Hpl, Hcur. fold pm in Hpl, Hcur.
  assert (Hm : manager (_refresh_playlist_display (set_manager pm1 p)) = pm1)
    by reflexivity.
  rewrite Hm.
  pose proof (Run.inv_cursor _ (inv_store p HI)) as Hok. fold pm in Hok.
  assert (Hgrow : Py.len (playlist pm) <= Py.len (playlist pm1)).
  { rewrite Hpl. unfold Py.len. rewrite length_app. lia. }
  destruct (current_index pm1 =? -1) eqn:E1; cbn [andb].
  - apply Z.eqb_eq in E1.
    destruct (playlist pm1) as [|x r] eqn:El; cbn [Py.is_empty negb].
    + rewrite Hm, El. split; [now rewrite <- Hpl|].
      split; [congruence|]. split; [lia | congruence].
    + unfold manager. cbn [player set_manager set_player
                             VinylPlayer.playlist_manager VinylPlayer.set_pm
                             playlist current_index set_current_index].
      change (VinylPlayer.playlist_manager
                (player (_refresh_playlist_display (set_manager pm1 p))))
        with pm1.
      rewrite El. split; [now rewrite <- Hpl|].
      split; [intros _; unfold Py.len; simpl List.length; lia|].
      split; [lia | reflexivity].
  - apply Z.eqb_neq in E1. rewrite Hm.
    split; [exact Hpl|]. split; [|split; [intros _; exact Hcur | lia]].
    intros _. unfold Run.cursor_ok in Hok. lia.
Qed.

Lemma chosen_files_give_a_current_track_witness :
  current_index (manager demo_panel) = 0.
Proof.
  destruct (chosen_files_give_a_current_track
              ["A.mp3"; "B.mp3"; "notes.txt"; "C.ogg"; "D.wav"]%string
              Panel.init) as (_ & _ & _ & H).
  - exact panel_inv_init.
  - discriminate.
  - apply H; [reflexivity | discriminate].
Defined.

(** X22. A double click on a row the list box shows never fails: it puts
    the cursor on the track that row stands for, a listed track that
    matches the search, and starts that track, or reports that it cannot
    be loaded. *)
Theorem double_click_plays_the_row (be : VinylPlayer.Backend) (now : Q)
    (row : Z) (more : list Z) (p : Panel.t) :
  Panel.Inv p -> 0 <= row < Py.len (filtered_indices p) ->
  exists i p',
    Py.get (filtered_indices p) row = Some i
    /\ 0 <= i < Py.len (playlist (manager p))
    /\ shown (Py.lower (search_var p))
             (nth (Z.to_nat i) (playlist (manager p)) EmptyString) = true
    /\ _double_click_play be now (row :: more) p
       = Some (if VinylPlayer.load_ok be
                    (nth (Z.to_nat i) (playlist (manager p)) EmptyString)
               then VinylPlayer.NowPlaying
                      (nth (Z.to_nat i) (playlist (manager p)) EmptyString)
               else VinylPlayer.LoadError
                      (nth (Z.to_nat i) (playlist (manager p)) EmptyString),
               p')
    /\ current_index (manager p') = i
    /\ playlist (manager p') = playlist (manager p).
Proof.
  intros HI Hrow.
  destruct (row_index p row HI Hrow) as (i & Hget & Hact & _ & Hi & Hshown).
  exists i.
  exists (set_player
            (snd (VinylPlayer.load_and_play be now i
                    (VinylPlayer.set_pm (set_current_index i (manager p))
                                        (player p)))) p).
  split; [exact Hget|]. split; [exact Hi|]. split; [exact Hshown|].
  unfold _double_click_play. rewrite Hact.
  assert (Hm : manager
                 (set_player
                    (snd (VinylPlayer.load_and_play be now i
                            (VinylPlayer.set_pm
                               (set_current_index i (manager p)) (player p))))
                    p)
               = set_current_index i (manager p)).
  { unfold manager at 1. cbn [player set_player].
    now rewrite load_and_play_keeps_manager. }
  rewrite Hm. split; [|split; reflexivity].
  f_equal. f_equal.
  unfold VinylPlayer.load_and_play.
  cbn [VinylPlayer.playlist_manager VinylPlayer.set_pm playlist
       set_current_index].
  fold (manager p).
  replace (i <? 0) with false by (symmetry; apply Z.ltb_ge; lia).
  replace (Py.len (playlist (manager p)) <=? i) with false
    by (symmetry; apply Z.leb_gt; lia).
  cbn [orb].
  destruct (VinylPlayer.load_ok be _); reflexivity.
Qed.

Lemma double_click_plays_the_row_witness :
  exists p',
    _double_click_play demo_backend 100%Q [1] searched_panel
    = Some (VinylPlayer.NowPlaying "B.mp3", p').
Proof.
  destruct (double_click_plays_the_row demo_backend 100%Q 1 [] searched_panel)
    as (i & p' & Hget & _ & _ & Hplay & _).
  - exact (panel_reachable_inv _ reachable_searched_panel).
  - vm_compute. split; [discriminate | reflexivity].
  - exists p'. rewrite Hplay.
    vm_compute in Hget. injection Hget as <-. reflexivity.
Defined.

End PanelTheorems.

(** ** The end of a track *)

Section EndOfTrack.

Import PlaybackState VinylPlayer Scenario ShuffleScenario.



End EndOfTrack.

(** ** Two toggles from a shuffled store *)

Section ShuffledStore.

Import PlaylistManager Run Scenario ShuffleScenario.

Lemma permutes_rotate : permutes rotate.
Proof.
  intros [|x rest]; [constructor|]. apply Permutation_cons_append.
Qed.

Lemma reachable_shuffled_store : reachable shuffled_store.
Proof.
  apply (reach_step (add_files ["A.mp3"; "B.mp3"; "C.mp3"]%string init)
           (ToggleShuffle (@rev string))).
  - apply (reach_step init (AddFiles ["A.mp3"; "B.mp3"; "C.mp3"]%string));
      [apply reach_init | exact I | reflexivity].
  - exact permutes_rev.
  - reflexivity.
Qed.

(** C5, as the specification words it, fails: it does not say that shuffle
    is off before the first call. From the reachable store whose three
    distinct tracks have been shuffled to [C, B, A], the first toggle
    restores [A, B, C] and the second shuffles anew, here to [B, C, A]. *)
Lemma two_toggles_from_a_shuffled_store :
  reachable shuffled_store
  /\ shuffle_mode shuffled_store = true
  /\ NoDup (playlist shuffled_store)
  /\ permutes (@rev string) /\ permutes rotate
  /\ exists pm1 pm2,
       toggle_shuffle (@rev string) shuffled_store = Some pm1
       /\ toggle_shuffle rotate pm1 = Some pm2
       /\ playlist pm1 = ["A.mp3"; "B.mp3"; "C.mp3"]%string
       /\ playlist pm2 = ["B.mp3"; "C.mp3"; "A.mp3"]%string
       /\ playlist pm2 <> playlist shuffled_store.
Proof.
  split; [exact reachable_shuffled_store|]. split; [reflexivity|].
  split; [repeat constructor; simpl; intuition discriminate|].
  split; [exact permutes_rev|]. split; [exact permutes_rotate|].
  eexists. eexists. split; [reflexivity|]. split; [reflexivity|].
  split; [reflexivity|]. split; [reflexivity|]. discriminate.
Qed.

End ShuffledStore.
